(** * Numeric verification utility: fibonacci, is_prime and the tally-based
      test runner of [features/algorithms-python/test_python.py].

    The embedding follows the Python source:
    - integers are unbounded, so they are [Z];
    - floats are IEEE 754 binary64 values, modelled by the Standard Library's
      [spec_float] with [prec = 53] and [emax = 1024]; [n ** 0.5] converts
      the integer to a float (which can overflow) and takes the square root,
      and [int(...)] truncates;
    - exceptions are the [Raise] case of a small error monad;
    - console output is the list of the strings handed to [print], in order;
    - [fibonacci] is given twice: as the total function that well-founded
      recursion defines, and as [fibonacci_frames], the same code run with a
      bound on the depth of the call stack. *)

From Equations Require Import Equations.
From Bignums Require Import BigN.
From Stdlib Require Import ZArith List Bool Lia String Ascii Permutation.
From Stdlib Require Import Znumtheory Zpow_facts SpecFloat DecimalString.
Import ListNotations.

Local Open Scope Z_scope.

(** ** Exceptions *)

Inductive exn : Type :=
| OverflowError   (* int too large to convert to float / float infinity to int *)
| ValueError      (* cannot convert float NaN to integer *)
| RecursionError. (* maximum recursion depth exceeded *)

Inductive result (A : Type) : Type :=
| Return (a : A)
| Raise (e : exn).
Arguments Return {A} a.
Arguments Raise {A} e.

Definition bind {A B : Type} (m : result A) (k : A -> result B) : result B :=
  match m with
  | Return a => k a
  | Raise e => Raise e
  end.

Notation "x <- m ;; k" := (bind m (fun x => k))
  (at level 61, m at next level, right associativity).

(** ** fibonacci *)

(** [fibonacci] as the source writes it: two guards, then the double
    recursion.  The recursion is on [n - 1] and [n - 2] with [n >= 2], so it
    is well founded along [Z.to_nat n]. *)
Equations? fibonacci (n : Z) : Z by wf (Z.to_nat n) lt :=
  fibonacci n with Z_le_gt_dec n 0 => {
    | left _ := 0;
    | right _ with Z.eq_dec n 1 => {
        | left _ := 1;
        | right _ := fibonacci (n - 1) + fibonacci (n - 2) } }.
Proof. all: lia. Qed.

(** The same function run on an interpreter whose call stack holds at most
    [limit] frames of [fibonacci]: a call that would need one more frame
    raises [RecursionError]. *)
Fixpoint fibonacci_frames (limit : nat) (n : Z) : result Z :=
  match limit with
  | O => Raise RecursionError
  | S limit' =>
      if n <=? 0 then Return 0
      else if n =? 1 then Return 1
      else a <- fibonacci_frames limit' (n - 1) ;;
           b <- fibonacci_frames limit' (n - 2) ;;
           Return (a + b)
  end.

(** [fibonacci] instrumented with a counter: the value together with the
    number of calls of [fibonacci] that computing it makes, the outermost
    call included. *)
Equations? fibonacci_counted (n : Z) : Z * Z by wf (Z.to_nat n) lt :=
  fibonacci_counted n with Z_le_gt_dec n 0 => {
    | left _ := (0, 1);
    | right _ with Z.eq_dec n 1 => {
        | left _ := (1, 1);
        | right _ :=
            let a := fibonacci_counted (n - 1) in
            let b := fibonacci_counted (n - 2) in
            (fst a + fst b, 1 + snd a + snd b) } }.
Proof. all: lia. Qed.

(** The reference sequence of the specification, indexed by [nat]:
    fib(0)=0, fib(1)=1, fib(k)=fib(k-1)+fib(k-2) for k>=2. *)
Fixpoint fib_ref (k : nat) : Z :=
  match k with
  | O => 0
  | S k' =>
      match k' with
      | O => 1
      | S k'' => fib_ref k' + fib_ref k''
      end
  end.

(** ** Floats: [n ** 0.5] and [int(...)] *)

Definition prec : Z := 53.
Definition emax : Z := 1024.

(** [float(n)] for an integer [n]: the nearest binary64 value, ties to even;
    an integer that rounds past the largest finite double raises
    [OverflowError] (int too large to convert to float). *)
Definition float_of_int (n : Z) : result spec_float :=
  match binary_normalize prec emax n 0 false with
  | S754_infinity _ => Raise OverflowError
  | x => Return x
  end.

(** [x ** 0.5] on floats is the C library's [pow(x, 0.5)]; for the finite,
    positive bases that reach it here it is taken to be the correctly rounded
    square root. *)
Definition float_pow_half (x : spec_float) : spec_float := SFsqrt prec emax x.

(** [n ** 0.5] for an integer [n]: the base is converted to a float first. *)
Definition int_pow_half (n : Z) : result spec_float :=
  x <- float_of_int n ;; Return (float_pow_half x).

(** [int(x)] for a float [x]: truncation towards zero. *)
Definition int_of_float (x : spec_float) : result Z :=
  match x with
  | S754_zero _ => Return 0
  | S754_finite s m e => Return (cond_Zopp s (Z.shiftl (Zpos m) e))
  | S754_infinity _ => Raise OverflowError
  | S754_nan => Raise ValueError
  end.

(** Whether rounding to nearest, ties to even, goes up when [k] bits are
    dropped from [n]. *)
Definition rounds_up (n k : Z) : bool :=
  (2 ^ (k - 1) <? n mod 2 ^ k)
  || ((n mod 2 ^ k =? 2 ^ (k - 1)) && Z.odd (n / 2 ^ k)).

Definition rounded_mantissa (n k : Z) : Z :=
  if rounds_up n k then n / 2 ^ k + 1 else n / 2 ^ k.

(** ** is_prime *)

(** [range(lo, hi)]: the integers [lo, lo+1, ..., hi-1], none when
    [hi <= lo]. *)
Definition range (lo hi : Z) : list Z :=
  map (fun k => lo + Z.of_nat k) (seq 0 (Z.to_nat (hi - lo))).

(** The body of the [for] loop: the first [i] with [n % i == 0] returns
    [False]; falling off the end returns [True]. *)
Fixpoint is_prime_loop (n : Z) (candidates : list Z) : bool :=
  match candidates with
  | [] => true
  | i :: rest => if n mod i =? 0 then false else is_prime_loop n rest
  end.

Definition is_prime (n : Z) : result bool :=
  if n <? 2 then Return false
  else
    r <- int_pow_half n ;;
    k <- int_of_float r ;;
    Return (is_prime_loop n (range 2 (k + 1))).

(** ** The test runner *)

(** A value that a test case holds: the table mixes integers and Booleans. *)
Inductive value : Type :=
| VInt (z : Z)
| VBool (b : bool).

(** Python's [bool] is a subclass of [int]: [True == 1] and [False == 0]. *)
Definition int_of_value (v : value) : Z :=
  match v with
  | VInt z => z
  | VBool b => if b then 1 else 0
  end.

Definition py_eq (a b : value) : bool := int_of_value a =? int_of_value b.

(** [str(v)], as an f-string field prints it. *)
Definition str_of_int (z : Z) : string := NilZero.string_of_int (Z.to_int z).

Definition py_str (v : value) : string :=
  match v with
  | VInt z => str_of_int z
  | VBool true => "True"
  | VBool false => "False"
  end.

(** One entry of the table: (actual, expected, message). *)
Definition test_case : Type := value * value * string.

Definition actual (t : test_case) : value := fst (fst t).
Definition expected (t : test_case) : value := snd (fst t).
Definition message (t : test_case) : string := snd t.

Definition newline : string := String (ascii_of_nat 10) EmptyString.

Fixpoint repeat_string (s : string) (k : nat) : string :=
  match k with
  | O => EmptyString
  | S k' => s ++ repeat_string s k'
  end.

(** The runner's local state: what has been printed so far and the two
    counters. *)
Record tally : Type := {
  stdout : list string;
  tests_passed : Z;
  tests_failed : Z
}.

Definition print (line : string) (st : tally) : tally :=
  {| stdout := stdout st ++ [line];
     tests_passed := tests_passed st;
     tests_failed := tests_failed st |}.

Definition pass_line (message : string) : string := "✓ " ++ message.

Definition fail_line (message : string) (expected actual : value) : string :=
  "✗ " ++ message ++ " - Expected " ++ py_str expected
       ++ ", got " ++ py_str actual.

(** One iteration of [for actual, expected, message in tests]. *)
Definition check_case (st : tally) (t : test_case) : tally :=
  let '(actual, expected, message) := t in
  if py_eq actual expected then
    let st := print (pass_line message) st in
    {| stdout := stdout st;
       tests_passed := tests_passed st + 1;
       tests_failed := tests_failed st |}
  else
    let st := print (fail_line message expected actual) st in
    {| stdout := stdout st;
       tests_passed := tests_passed st;
       tests_failed := tests_failed st + 1 |}.

Definition separator : string := repeat_string "=" 40.

Definition total_line (st : tally) : string :=
  "Total: " ++ str_of_int (tests_passed st + tests_failed st) ++ " tests".

Definition passed_line (st : tally) : string :=
  "Passed: " ++ str_of_int (tests_passed st).

Definition failed_line (st : tally) : string :=
  "Failed: " ++ str_of_int (tests_failed st).

(** The four [print] calls after the loop. *)
Definition print_summary (st : tally) : tally :=
  print separator
    (print (failed_line st)
       (print (passed_line st)
          (print (total_line st)
             (print (newline ++ separator) st)))).

Definition banner : string := "Running Python tests..." ++ newline.

Definition initial_tally : tally :=
  print banner {| stdout := []; tests_passed := 0; tests_failed := 0 |}.

(** The loop over the table. *)
Definition run_cases (tests : list test_case) : tally :=
  fold_left check_case tests initial_tally.

(** [run_tests] with the table taken as an argument: what was printed, and
    the returned Boolean (or the exception that building the table raised). *)
Definition run_tests_on (table : result (list test_case))
  : list string * result bool :=
  match table with
  | Raise e => (stdout initial_tally, Raise e)
  | Return tests =>
      let st := print_summary (run_cases tests) in
      (stdout st, Return (tests_failed st =? 0))
  end.

(** The hard-coded table; its elements are evaluated in order. *)
Definition tests : result (list test_case) :=
  f0 <- Return (fibonacci 0) ;;
  f1 <- Return (fibonacci 1) ;;
  f5 <- Return (fibonacci 5) ;;
  f7 <- Return (fibonacci 7) ;;
  p2 <- is_prime 2 ;;
  p17 <- is_prime 17 ;;
  p4 <- is_prime 4 ;;
  p1 <- is_prime 1 ;;
  Return
    [ (VInt f0, VInt 0, "fibonacci(0) should be 0");
      (VInt f1, VInt 1, "fibonacci(1) should be 1");
      (VInt f5, VInt 5, "fibonacci(5) should be 5");
      (VInt f7, VInt 13, "fibonacci(7) should be 13");
      (VBool p2, VBool true, "is_prime(2) should be True");
      (VBool p17, VBool true, "is_prime(17) should be True");
      (VBool p4, VBool false, "is_prime(4) should be False");
      (VBool p1, VBool false, "is_prime(1) should be False") ]%string.

Definition run_tests : list string * result bool := run_tests_on tests.

(** The line that the loop prints for one case. *)
Definition case_line (t : test_case) : string :=
  if py_eq (actual t) (expected t)
  then pass_line (message t)
  else fail_line (message t) (expected t) (actual t).

Definition passes (t : test_case) : bool := py_eq (actual t) (expected t).

(** The table with the expected value of entry [i] replaced by [v]. *)
Fixpoint set_expected (i : nat) (v : value) (ts : list test_case)
  : list test_case :=
  match ts, i with
  | [], _ => []
  | t :: rest, O => (actual t, v, message t) :: rest
  | t :: rest, S i' => t :: set_expected i' v rest
  end.

(** Entry [i] of a table, when the table was built and has one. *)
Definition table_entry (table : result (list test_case)) (i : nat)
  : option test_case :=
  match table with
  | Return ts => nth_error ts i
  | Raise _ => None
  end.

(** The mutation of the table: the expected value of entry [i] is [v]. *)
Definition corrupt (i : nat) (v : value) (table : result (list test_case))
  : result (list test_case) :=
  ts <- table ;; Return (set_expected i v ts).

(** The report of the hard-coded table, line by line. *)
Definition expected_report : list string :=
  [ banner;
    "✓ fibonacci(0) should be 0";
    "✓ fibonacci(1) should be 1";
    "✓ fibonacci(5) should be 5";
    "✓ fibonacci(7) should be 13";
    "✓ is_prime(2) should be True";
    "✓ is_prime(17) should be True";
    "✓ is_prime(4) should be False";
    "✓ is_prime(1) should be False";
    newline ++ separator;
    "Total: 8 tests";
    "Passed: 8";
    "Failed: 0";
    separator ]%string.

(** ** The entry point *)

(** [sys.exit(0 if success else 1)]. *)
Definition exit_status (success : bool) : Z := if success then 0 else 1.

(** The [__main__] block over a given table: the output and the process
    exit status.  An exception that nothing catches ends the process with
    status 1. *)
Definition main_on (table : result (list test_case)) : list string * Z :=
  let '(out, r) := run_tests_on table in
  match r with
  | Return success => (out, exit_status success)
  | Raise _ => (out, 1)
  end.

Definition main : list string * Z := main_on tests.

(** ** A prime number beyond the range of binary64 *)

(** Modular exponentiation on machine-word integers, used to check the
    primality certificate of [huge_prime] by computation. *)
Fixpoint powm (a : bigN) (e : positive) (n : bigN) : bigN :=
  match e with
  | xH => BigN.modulo a n
  | xO e' => let r := powm a e' n in BigN.modulo (BigN.mul r r) n
  | xI e' =>
      let r := powm a e' n in
      BigN.modulo (BigN.mul (BigN.modulo (BigN.mul r r) n) a) n
  end.

(** Proth numbers [k * 2^(m+1) + 1], and one just above [2^1024]. *)
Definition proth_number (k : Z) (m : nat) : Z := k * 2 ^ Z.of_nat (S m) + 1.

Definition huge_prime : Z := 75 * 2 ^ 1018 + 1.

(** * Properties *)

(** ** fibonacci *)

Lemma fibonacci_nonpos (n : Z) : n <= 0 -> fibonacci n = 0.
Proof.
  intros Hn. simp fibonacci. destruct (Z_le_gt_dec n 0); [reflexivity | lia].
Qed.

Lemma fibonacci_step (n : Z) :
  2 <= n -> fibonacci n = fibonacci (n - 1) + fibonacci (n - 2).
Proof.
  intros Hn. rewrite (fibonacci_equation_1 n).
  destruct (Z_le_gt_dec n 0); [lia |]. cbn.
  destruct (Z.eq_dec n 1); [lia | reflexivity].
Qed.

Lemma fibonacci_ref_pair (k : nat) :
  fibonacci (Z.of_nat k) = fib_ref k
  /\ fibonacci (Z.of_nat (S k)) = fib_ref (S k).
Proof.
  induction k as [| k [IH0 IH1]].
  - split; reflexivity.
  - split; [exact IH1 |].
    rewrite fibonacci_step by lia.
    replace (Z.of_nat (S (S k)) - 1) with (Z.of_nat (S k)) by lia.
    replace (Z.of_nat (S (S k)) - 2) with (Z.of_nat k) by lia.
    rewrite IH0, IH1. reflexivity.
Qed.

(** C1: for every integer n >= 0, [fibonacci n] is the n-th term of the
    reference sequence fib(0)=0, fib(1)=1, fib(k)=fib(k-1)+fib(k-2); in
    particular fibonacci(1)=1, fibonacci(5)=5, fibonacci(7)=13 and
    fibonacci(10)=55. *)
Theorem fibonacci_is_reference_sequence :
  (forall n : Z, 0 <= n -> fibonacci n = fib_ref (Z.to_nat n))
  /\ fibonacci 1 = 1 /\ fibonacci 5 = 5
  /\ fibonacci 7 = 13 /\ fibonacci 10 = 55.
Proof.
  split.
  - intros n Hn. rewrite <- (Z2Nat.id n Hn) at 1.
    apply (proj1 (fibonacci_ref_pair (Z.to_nat n))).
  - repeat split; vm_compute; reflexivity.
Qed.

Lemma fibonacci_is_reference_sequence_witness :
  fibonacci 12 = fib_ref (Z.to_nat 12).
Proof.
  apply (proj1 fibonacci_is_reference_sequence 12). lia.
Defined.

(** C7: for every integer n <= 0, negative inputs included,
    [fibonacci n] returns 0. *)
Theorem fibonacci_nonpositive_is_zero (n : Z) : n <= 0 -> fibonacci n = 0.
Proof.
  intros Hn. rewrite (fibonacci_equation_1 n).
  destruct (Z_le_gt_dec n 0) as [Hle | Hgt]; [reflexivity | lia].
Qed.

Lemma fibonacci_nonpositive_is_zero_witness : fibonacci (-3) = 0.
Proof. apply (fibonacci_nonpositive_is_zero (-3)). lia. Defined.

Lemma fibonacci_pos_pair (k : nat) :
  1 <= fibonacci (Z.of_nat (S k)) /\ 1 <= fibonacci (Z.of_nat (S (S k))).
Proof.
  induction k as [| k [IH0 IH1]].
  - split; vm_compute; discriminate.
  - split; [exact IH1 |].
    rewrite fibonacci_step by lia.
    replace (Z.of_nat (S (S (S k))) - 1) with (Z.of_nat (S (S k))) by lia.
    replace (Z.of_nat (S (S (S k))) - 2) with (Z.of_nat (S k)) by lia.
    lia.
Qed.

Lemma fibonacci_positive (n : Z) : 1 <= n -> 1 <= fibonacci n.
Proof.
  intros Hn. replace n with (Z.of_nat (S (Z.to_nat (n - 1)))) by lia.
  apply (proj1 (fibonacci_pos_pair _)).
Qed.

(** C10: for every integer n, [fibonacci n = 0] if and only if n <= 0;
    equivalently [fibonacci n >= 1] for every n >= 1. *)
Theorem fibonacci_zero_iff_nonpositive :
  (forall n : Z, fibonacci n = 0 <-> n <= 0)
  /\ (forall n : Z, 1 <= n -> 1 <= fibonacci n).
Proof.
  split; [| exact fibonacci_positive].
  intros n. split.
  - intros H0. destruct (Z_le_gt_dec n 0) as [Hle | Hgt]; [exact Hle |].
    pose proof (fibonacci_positive n ltac:(lia)). lia.
  - apply fibonacci_nonpos.
Qed.

Lemma fibonacci_zero_iff_nonpositive_witness : 1 <= fibonacci 9.
Proof. apply (proj2 fibonacci_zero_iff_nonpositive 9). lia. Defined.

(** X4: run with a call stack of [limit] frames, [fibonacci n] returns its
    value exactly when [limit >= 1] and [n <= limit], and raises
    RecursionError otherwise: the recursion is max(n, 1) frames deep. *)
Theorem fibonacci_recursion_depth (limit : nat) (n : Z) :
  fibonacci_frames limit n
  = if ((1 <=? limit)%nat && (n <=? Z.of_nat limit))%bool
    then Return (fibonacci n)
    else Raise RecursionError.
Proof.
  revert n. induction limit as [| limit IH]; intros n; [reflexivity |].
  cbn [fibonacci_frames Nat.leb andb].
  destruct (n <=? 0) eqn:H0.
  - apply Z.leb_le in H0. rewrite fibonacci_nonpos by lia.
    destruct (n <=? Z.of_nat (S limit)) eqn:Hl; [reflexivity |].
    apply Z.leb_gt in Hl. lia.
  - apply Z.leb_gt in H0. destruct (n =? 1) eqn:H1.
    + apply Z.eqb_eq in H1. subst n.
      destruct (1 <=? Z.of_nat (S limit)) eqn:Hl; [reflexivity |].
      apply Z.leb_gt in Hl. lia.
    + apply Z.eqb_neq in H1. rewrite !IH.
      destruct (n <=? Z.of_nat (S limit)) eqn:Hl.
      * apply Z.leb_le in Hl.
        assert (H1l : (1 <=? limit)%nat = true) by (apply Nat.leb_le; lia).
        assert (Ha : (n - 1 <=? Z.of_nat limit) = true)
          by (apply Z.leb_le; lia).
        assert (Hb : (n - 2 <=? Z.of_nat limit) = true)
          by (apply Z.leb_le; lia).
        rewrite H1l, Ha, Hb. cbn [andb bind].
        rewrite (fibonacci_step n) by lia. reflexivity.
      * apply Z.leb_gt in Hl.
        assert (Ha : (n - 1 <=? Z.of_nat limit) = false)
          by (apply Z.leb_gt; lia).
        rewrite Ha, andb_false_r. reflexivity.
Qed.

(** *** The cost and the growth of fibonacci *)

Lemma fibonacci_counted_nonpos (n : Z) :
  n <= 0 -> fibonacci_counted n = (0, 1).
Proof.
  intros Hn. rewrite (fibonacci_counted_equation_1 n).
  destruct (Z_le_gt_dec n 0); [reflexivity | lia].
Qed.

Lemma fibonacci_counted_step (n : Z) :
  2 <= n ->
  fibonacci_counted n
  = (fst (fibonacci_counted (n - 1)) + fst (fibonacci_counted (n - 2)),
     1 + snd (fibonacci_counted (n - 1)) + snd (fibonacci_counted (n - 2))).
Proof.
  intros Hn. rewrite (fibonacci_counted_equation_1 n).
  destruct (Z_le_gt_dec n 0); [lia |]. cbn.
  destruct (Z.eq_dec n 1); [lia | reflexivity].
Qed.

Lemma fibonacci_counted_pair (k : nat) :
  (fibonacci_counted (Z.of_nat k)
   = (fibonacci (Z.of_nat k), 2 * fibonacci (Z.of_nat k + 1) - 1))
  /\ (fibonacci_counted (Z.of_nat (S k))
      = (fibonacci (Z.of_nat (S k)), 2 * fibonacci (Z.of_nat (S k) + 1) - 1)).
Proof.
  induction k as [| k [IH0 IH1]].
  - split; reflexivity.
  - split; [exact IH1 |].
    rewrite fibonacci_counted_step by lia.
    replace (Z.of_nat (S (S k)) - 1) with (Z.of_nat (S k)) by lia.
    replace (Z.of_nat (S (S k)) - 2) with (Z.of_nat k) by lia.
    rewrite IH0, IH1. cbn [fst snd].
    rewrite (fibonacci_step (Z.of_nat (S (S k)))) by lia.
    rewrite (fibonacci_step (Z.of_nat (S (S k)) + 1)) by lia.
    replace (Z.of_nat (S (S k)) - 1) with (Z.of_nat (S k)) by lia.
    replace (Z.of_nat (S (S k)) - 2) with (Z.of_nat k) by lia.
    replace (Z.of_nat (S (S k)) + 1 - 1) with (Z.of_nat k + 1 + 1) by lia.
    replace (Z.of_nat (S (S k)) + 1 - 2) with (Z.of_nat k + 1) by lia.
    replace (Z.of_nat (S k) + 1) with (Z.of_nat k + 1 + 1) by lia.
    rewrite (fibonacci_step (Z.of_nat k + 1 + 1)) by lia.
    replace (Z.of_nat k + 1 + 1 - 1) with (Z.of_nat k + 1) by lia.
    replace (Z.of_nat k + 1 + 1 - 2) with (Z.of_nat k) by lia.
    f_equal; lia.
Qed.

Lemma fibonacci_counted_spec (n : Z) :
  fst (fibonacci_counted n) = fibonacci n
  /\ snd (fibonacci_counted n)
     = (if n <? 0 then 1 else 2 * fibonacci (n + 1) - 1).
Proof.
  destruct (n <? 0) eqn:Hn.
  - apply Z.ltb_lt in Hn.
    rewrite fibonacci_counted_nonpos, fibonacci_nonpos by lia. split; reflexivity.
  - apply Z.ltb_ge in Hn.
    pose proof (proj1 (fibonacci_counted_pair (Z.to_nat n))) as H.
    rewrite Z2Nat.id in H by lia. rewrite H. split; reflexivity.
Qed.

(** X9: the instrumented function computes [fibonacci], and for n >= 0 it
    makes [2 * fibonacci (n + 1) - 1] calls; for n < 0 it makes one. *)
Theorem fibonacci_call_count (n : Z) :
  fst (fibonacci_counted n) = fibonacci n
  /\ snd (fibonacci_counted n)
     = (if n <? 0 then 1 else 2 * fibonacci (n + 1) - 1).
Proof. exact (fibonacci_counted_spec n). Qed.

Lemma fibonacci_nonneg (n : Z) : 0 <= fibonacci n.
Proof.
  destruct (Z_le_gt_dec n 0) as [H | H].
  - rewrite fibonacci_nonpos by lia. lia.
  - pose proof (fibonacci_positive n ltac:(lia)). lia.
Qed.

Lemma fibonacci_succ_le (n : Z) : fibonacci n <= fibonacci (n + 1).
Proof.
  destruct (Z_le_gt_dec n 0) as [H | H].
  - rewrite (fibonacci_nonpos n) by lia. apply fibonacci_nonneg.
  - rewrite (fibonacci_step (n + 1)) by lia.
    replace (n + 1 - 1) with n by lia.
    pose proof (fibonacci_nonneg (n + 1 - 2)). lia.
Qed.

(** X10: [fibonacci] is non-decreasing over all integers. *)
Theorem fibonacci_monotone (n m : Z) :
  n <= m -> fibonacci n <= fibonacci m.
Proof.
  intros Hnm. replace m with (n + Z.of_nat (Z.to_nat (m - n))) by lia.
  induction (Z.to_nat (m - n)) as [| d IH].
  - rewrite Z.add_0_r. lia.
  - pose proof (fibonacci_succ_le (n + Z.of_nat d)).
    replace (n + Z.of_nat (S d)) with (n + Z.of_nat d + 1) by lia. lia.
Qed.

Lemma fibonacci_growth_pair (k : nat) :
  (2 ^ (Z.of_nat k / 2) <= fibonacci (Z.of_nat k + 1) <= 2 ^ Z.of_nat k)
  /\ (2 ^ (Z.of_nat (S k) / 2) <= fibonacci (Z.of_nat (S k) + 1)
      <= 2 ^ Z.of_nat (S k)).
Proof.
  induction k as [| k [IH0 IH1]].
  - split; vm_compute; split; discriminate.
  - split; [exact IH1 |].
    rewrite (fibonacci_step (Z.of_nat (S (S k)) + 1)) by lia.
    replace (Z.of_nat (S (S k)) + 1 - 1) with (Z.of_nat (S k) + 1) by lia.
    replace (Z.of_nat (S (S k)) + 1 - 2) with (Z.of_nat k + 1) by lia.
    pose proof (fibonacci_succ_le (Z.of_nat k + 1)) as Hle.
    replace (Z.of_nat k + 1 + 1) with (Z.of_nat (S k) + 1) in Hle by lia.
    assert (Hhalf : Z.of_nat (S (S k)) / 2 = Z.of_nat k / 2 + 1).
    { replace (Z.of_nat (S (S k))) with (Z.of_nat k + 1 * 2) by lia.
      rewrite Z.div_add by lia. reflexivity. }
    assert (Hdiv : 0 <= Z.of_nat k / 2) by (apply Z.div_pos; lia).
    rewrite Hhalf, Z.pow_add_r, Z.pow_1_r by lia.
    replace (Z.of_nat (S (S k))) with (Z.of_nat (S k) + 1) by lia.
    rewrite (Z.pow_add_r 2 (Z.of_nat (S k))), Z.pow_1_r by lia.
    assert (2 ^ Z.of_nat k <= 2 ^ Z.of_nat (S k))
      by (apply Z.pow_le_mono_r; lia).
    lia.
Qed.

(** X11: exponential growth: for n >= 0, [2^(n/2) <= fibonacci (n+1) <= 2^n]; so
    computing [fibonacci n] takes at least [2^(n/2)] calls. *)
Theorem fibonacci_exponential (n : Z) :
  0 <= n ->
  2 ^ (n / 2) <= fibonacci (n + 1) <= 2 ^ n
  /\ 2 ^ (n / 2) <= snd (fibonacci_counted n).
Proof.
  intros Hn.
  pose proof (proj1 (fibonacci_growth_pair (Z.to_nat n))) as H.
  rewrite Z2Nat.id in H by lia.
  split; [exact H |].
  rewrite (proj2 (fibonacci_counted_spec n)).
  destruct (n <? 0) eqn:Hneg; [apply Z.ltb_lt in Hneg; lia |].
  assert (0 < 2 ^ (n / 2)) by (apply Z.pow_pos_nonneg; [lia | apply Z.div_pos; lia]).
  lia.
Qed.

Lemma fibonacci_monotone_witness : fibonacci (-4) <= fibonacci 6.
Proof. apply (fibonacci_monotone (-4) 6). discriminate. Defined.

Lemma fibonacci_exponential_witness :
  2 ^ (10 / 2) <= fibonacci (10 + 1) <= 2 ^ 10
  /\ 2 ^ (10 / 2) <= snd (fibonacci_counted 10).
Proof. apply (fibonacci_exponential 10). discriminate. Defined.

(** ** The runner's loop *)

Lemma check_case_stdout (st : tally) (t : test_case) :
  stdout (check_case st t) = stdout st ++ [case_line t].
Proof.
  destruct t as [[a e] m]. unfold check_case, case_line, actual, expected, message.
  cbn [fst snd]. destruct (py_eq a e); reflexivity.
Qed.

Lemma check_case_passed (st : tally) (t : test_case) :
  tests_passed (check_case st t)
  = tests_passed st + (if passes t then 1 else 0).
Proof.
  destruct t as [[a e] m]. unfold check_case, passes, actual, expected.
  cbn [fst snd]. destruct (py_eq a e); cbn; lia.
Qed.

Lemma check_case_failed (st : tally) (t : test_case) :
  tests_failed (check_case st t)
  = tests_failed st + (if passes t then 0 else 1).
Proof.
  destruct t as [[a e] m]. unfold check_case, passes, actual, expected.
  cbn [fst snd]. destruct (py_eq a e); cbn; lia.
Qed.

(** The state after the loop, from any starting state: one line per case in
    table order, and each counter advanced by the number of its cases. *)
Lemma fold_check_case (ts : list test_case) (st : tally) :
  let st' := fold_left check_case ts st in
  stdout st' = stdout st ++ map case_line ts
  /\ tests_passed st'
     = tests_passed st + Z.of_nat (List.length (filter passes ts))
  /\ tests_failed st'
     = tests_failed st
       + Z.of_nat (List.length (filter (fun t => negb (passes t)) ts)).
Proof.
  revert st. induction ts as [| t ts IH]; intros st; cbn [fold_left map filter].
  - cbn. rewrite app_nil_r. repeat split; lia.
  - destruct (IH (check_case st t)) as (Hout & Hp & Hf).
    cbv zeta in *. rewrite Hout, Hp, Hf.
    rewrite check_case_stdout, check_case_passed, check_case_failed.
    rewrite <- app_assoc. cbn [app].
    destruct (passes t); cbn [negb List.length]; repeat split; lia.
Qed.

Lemma run_cases_stdout (ts : list test_case) :
  stdout (run_cases ts) = banner :: map case_line ts.
Proof. unfold run_cases. now rewrite (proj1 (fold_check_case ts initial_tally)). Qed.

Lemma run_cases_passed (ts : list test_case) :
  tests_passed (run_cases ts) = Z.of_nat (List.length (filter passes ts)).
Proof.
  unfold run_cases.
  now rewrite (proj1 (proj2 (fold_check_case ts initial_tally))).
Qed.

Lemma run_cases_failed (ts : list test_case) :
  tests_failed (run_cases ts)
  = Z.of_nat (List.length (filter (fun t => negb (passes t)) ts)).
Proof.
  unfold run_cases.
  now rewrite (proj2 (proj2 (fold_check_case ts initial_tally))).
Qed.

Lemma filter_split_length {A : Type} (f : A -> bool) (l : list A) :
  (List.length (filter f l) + List.length (filter (fun x => negb (f x)) l)
   = List.length l)%nat.
Proof.
  induction l as [| x l IH]; cbn; [reflexivity |].
  destruct (f x); cbn; lia.
Qed.

Lemma filter_nil_iff {A : Type} (f : A -> bool) (l : list A) :
  List.length (filter f l) = 0%nat <-> forall x, In x l -> f x = false.
Proof.
  induction l as [| x l IH]; cbn.
  - split; [intros _ y [] | reflexivity].
  - destruct (f x) eqn:Hx; cbn.
    + split; [discriminate |]. intros H. specialize (H x (or_introl eq_refl)).
      congruence.
    + rewrite IH. split.
      * intros H y [<- | Hy]; auto.
      * intros H y Hy. apply H. now right.
Qed.

Lemma run_tests_on_stdout (ts : list test_case) :
  fst (run_tests_on (Return ts))
  = stdout (run_cases ts)
    ++ [ (newline ++ separator)%string;
         total_line (run_cases ts);
         passed_line (run_cases ts);
         failed_line (run_cases ts);
         separator ].
Proof.
  cbn. rewrite <- !app_assoc. reflexivity.
Qed.

Lemma run_tests_on_result (ts : list test_case) :
  snd (run_tests_on (Return ts)) = Return (tests_failed (run_cases ts) =? 0).
Proof. reflexivity. Qed.

(** A table whose cases all pass, with the expected value of one entry
    replaced by a value that differs from the actual one: every other case
    still passes and exactly that one fails. *)
Lemma set_expected_counts (ts : list test_case) :
  forallb passes ts = true ->
  forall (i : nat) (v : value) (t : test_case),
    nth_error ts i = Some t ->
    py_eq (actual t) v = false ->
    S (List.length (filter passes (set_expected i v ts))) = List.length ts
    /\ List.length (filter (fun c => negb (passes c)) (set_expected i v ts))
       = 1%nat.
Proof.
  induction ts as [| c ts IH]; intros Hall i v t Hnth Hne.
  - destruct i; discriminate.
  - cbn [forallb] in Hall. apply andb_true_iff in Hall as [Hc Hall].
    assert (Hnone : List.length (filter (fun c => negb (passes c)) ts) = 0%nat).
    { apply filter_nil_iff. intros x Hx.
      rewrite forallb_forall in Hall. now rewrite (Hall x Hx). }
    pose proof (filter_split_length passes ts) as Hsplit.
    destruct i as [| i]; cbn [nth_error set_expected filter] in *.
    + injection Hnth as <-.
      assert (Hp : passes (actual c, v, message c) = false) by exact Hne.
      rewrite Hp. cbn [negb List.length]. lia.
    + rewrite Hc. cbn [negb List.length].
      destruct (IH Hall i v t Hnth Hne) as [H1 H2]. lia.
Qed.

(** ** The claims about the runner *)

(** C3: for every test table, [run_tests] returns true if and only if the
    failed count is 0 after all cases were processed; equivalently it
    returns false if and only if some case has actual != expected. *)
Theorem run_tests_true_iff_no_failure (ts : list test_case) :
  exists b : bool,
    snd (run_tests_on (Return ts)) = Return b
    /\ (b = true <-> tests_failed (run_cases ts) = 0)
    /\ (b = false <->
        exists t, In t ts /\ py_eq (actual t) (expected t) = false).
Proof.
  exists (tests_failed (run_cases ts) =? 0). split; [reflexivity |]. split.
  - apply Z.eqb_eq.
  - rewrite Z.eqb_neq, run_cases_failed.
    pose proof (filter_nil_iff (fun t => negb (passes t)) ts) as Hnil.
    split.
    + intros Hne.
      destruct (filter (fun t => negb (passes t)) ts) as [| t l] eqn:Hf;
        [now elim Hne |].
      assert (Hin : In t (filter (fun t => negb (passes t)) ts))
        by (rewrite Hf; now left).
      apply filter_In in Hin as [Hin Hneg]. exists t. split; [exact Hin |].
      unfold passes in Hneg. now apply negb_true_iff.
    + intros (t & Hin & Hneq) Hzero.
      assert (Hlen : List.length (filter (fun t => negb (passes t)) ts) = 0%nat)
        by lia.
      apply Hnil with (x := t) in Hlen; [| exact Hin].
      unfold passes in Hlen. rewrite Hneq in Hlen. discriminate.
Qed.

(** C4: for every test table, every case is evaluated (one report line per
    case, in table order, whatever mismatches came before), the two counts
    are non-negative and add up to the number of cases, and the printed
    total is their sum. *)
Theorem run_tests_counts_every_case (ts : list test_case) :
  let st := run_cases ts in
  tests_passed st + tests_failed st = Z.of_nat (List.length ts)
  /\ 0 <= tests_passed st
  /\ 0 <= tests_failed st
  /\ fst (run_tests_on (Return ts))
     = banner :: map case_line ts
       ++ [ (newline ++ separator)%string;
            ("Total: " ++ str_of_int (tests_passed st + tests_failed st)
                       ++ " tests")%string;
            ("Passed: " ++ str_of_int (tests_passed st))%string;
            ("Failed: " ++ str_of_int (tests_failed st))%string;
            separator ].
Proof.
  cbv zeta.
  pose proof (run_cases_passed ts) as Hp.
  pose proof (run_cases_failed ts) as Hf.
  pose proof (filter_split_length passes ts) as Hsplit.
  repeat split; try lia.
  rewrite run_tests_on_stdout, run_cases_stdout. reflexivity.
Qed.

(** C5: the run over the hard-coded 8-case table prints Total: 8 tests,
    Passed: 8, Failed: 0, returns true, and the process exits with
    status 0. *)
Theorem fixed_table_all_pass :
  run_tests = (expected_report, Return true)
  /\ main = (expected_report, 0)
  /\ (exists ts, tests = Return ts /\ List.length ts = 8%nat
                 /\ tests_passed (run_cases ts) = 8
                 /\ tests_failed (run_cases ts) = 0).
Proof.
  split; [vm_compute; reflexivity |].
  split; [vm_compute; reflexivity |].
  eexists. split; [vm_compute; reflexivity |].
  repeat split; vm_compute; reflexivity.
Qed.

Lemma tests_built :
  exists ts, tests = Return ts /\ List.length ts = 8%nat
             /\ forallb passes ts = true.
Proof.
  eexists. split; [vm_compute; reflexivity |].
  split; vm_compute; reflexivity.
Qed.

(** C6: when the expected value of exactly one entry of the 8-case table is
    replaced by a value that differs from the actual one, the run reports
    Passed: 7 and Failed: 1, [run_tests] returns false, and the process
    exits with a non-zero status (1). *)
Theorem single_corruption_is_reported
  (i : nat) (v : value) (t : test_case) :
  table_entry tests i = Some t ->
  py_eq (actual t) v = false ->
  let run := run_tests_on (corrupt i v tests) in
  In "Passed: 7"%string (fst run)
  /\ In "Failed: 1"%string (fst run)
  /\ snd run = Return false
  /\ snd (main_on (corrupt i v tests)) = 1
  /\ snd (main_on (corrupt i v tests)) <> 0.
Proof.
  intros Hentry Hne.
  destruct tests_built as (ts & Hts & Hlen & Hall).
  unfold corrupt. rewrite Hts in *. cbn [bind table_entry] in *.
  destruct (set_expected_counts ts Hall i v t Hentry Hne) as [Hpass Hfail].
  set (ts' := set_expected i v ts) in *.
  assert (Hp : tests_passed (run_cases ts') = 7)
    by (rewrite run_cases_passed; lia).
  assert (Hf : tests_failed (run_cases ts') = 1)
    by (rewrite run_cases_failed; lia).
  assert (Hres : snd (run_tests_on (Return ts')) = Return false)
    by (rewrite run_tests_on_result, Hf; reflexivity).
  cbv zeta. rewrite run_tests_on_stdout.
  unfold passed_line, failed_line. rewrite Hp, Hf.
  repeat split.
  - apply in_or_app. right. cbn. auto.
  - apply in_or_app. right. cbn. auto.
  - exact Hres.
  - unfold main_on. destruct (run_tests_on (Return ts')) as [out r].
    cbn [snd] in Hres. subst r. reflexivity.
  - unfold main_on. destruct (run_tests_on (Return ts')) as [out r].
    cbn [snd] in Hres. subst r. discriminate.
Qed.

Lemma single_corruption_is_reported_witness :
  snd (main_on (corrupt 2 (VInt 6) tests)) = 1.
Proof.
  refine (proj1 (proj2 (proj2 (proj2
    (single_corruption_is_reported 2 (VInt 6)
       (VInt 5, VInt 5, "fibonacci(5) should be 5"%string) _ _))))).
  - vm_compute. reflexivity.
  - vm_compute. reflexivity.
Defined.

(** C9: the entry point exits with status 0 when [run_tests] returns true
    and with status 1 when it returns false. *)
Theorem exit_status_follows_run_tests (table : result (list test_case)) :
  (snd (run_tests_on table) = Return true -> snd (main_on table) = 0)
  /\ (snd (run_tests_on table) = Return false -> snd (main_on table) = 1).
Proof.
  unfold main_on. destruct (run_tests_on table) as [out r]. cbn [snd].
  split; intros ->; reflexivity.
Qed.

Lemma exit_status_follows_run_tests_witness :
  snd (main_on tests) = 0
  /\ snd (main_on (Return [(VInt 1, VInt 2, "one is two"%string)])) = 1.
Proof.
  split.
  - apply (proj1 (exit_status_follows_run_tests tests)).
    vm_compute. reflexivity.
  - apply (proj2 (exit_status_follows_run_tests
                    (Return [(VInt 1, VInt 2, "one is two"%string)]))).
    vm_compute. reflexivity.
Defined.

(** *** Composition, order and mutation of the table *)

(** X12: running the loop over two tables one after the other: the report lines
    of the second follow those of the first, the counters add up, and the
    run succeeds exactly when the runs over both parts do. *)
Theorem run_cases_app (ts1 ts2 : list test_case) :
  stdout (run_cases (ts1 ++ ts2))
  = stdout (run_cases ts1) ++ map case_line ts2
  /\ tests_passed (run_cases (ts1 ++ ts2))
     = tests_passed (run_cases ts1) + tests_passed (run_cases ts2)
  /\ tests_failed (run_cases (ts1 ++ ts2))
     = tests_failed (run_cases ts1) + tests_failed (run_cases ts2)
  /\ snd (run_tests_on (Return (ts1 ++ ts2)))
     = (b1 <- snd (run_tests_on (Return ts1)) ;;
        b2 <- snd (run_tests_on (Return ts2)) ;;
        Return (b1 && b2)).
Proof.
  rewrite !run_tests_on_result. cbn [bind].
  rewrite !run_cases_stdout, !run_cases_passed, !run_cases_failed.
  rewrite !filter_app, !length_app, map_app.
  repeat split; try lia.
  f_equal.
  destruct (List.length (filter (fun t => negb (passes t)) ts1));
    destruct (List.length (filter (fun t => negb (passes t)) ts2));
    reflexivity.
Qed.

Lemma filter_length_perm {A : Type} (f : A -> bool) (l l' : list A) :
  Permutation l l' -> List.length (filter f l) = List.length (filter f l').
Proof.
  intros Hp. induction Hp as [| x l l' Hp IH | x y l | l l' l'' H1 IH1 H2 IH2];
    cbn [filter].
  - reflexivity.
  - destruct (f x); cbn [List.length]; congruence.
  - destruct (f x), (f y); reflexivity.
  - congruence.
Qed.

(** X13: the order of the cases only decides the order of the report lines: a
    reordered table gives the same counts, the same returned Boolean and the
    same exit status, and its report is the same lines reordered. *)
Theorem run_tests_order_irrelevant (ts ts' : list test_case) :
  Permutation ts ts' ->
  tests_passed (run_cases ts') = tests_passed (run_cases ts)
  /\ tests_failed (run_cases ts') = tests_failed (run_cases ts)
  /\ snd (run_tests_on (Return ts')) = snd (run_tests_on (Return ts))
  /\ snd (main_on (Return ts')) = snd (main_on (Return ts))
  /\ Permutation (fst (run_tests_on (Return ts)))
                 (fst (run_tests_on (Return ts'))).
Proof.
  intros Hp.
  assert (Hpass : tests_passed (run_cases ts') = tests_passed (run_cases ts))
    by (rewrite !run_cases_passed; f_equal; symmetry;
        now apply filter_length_perm).
  assert (Hfail : tests_failed (run_cases ts') = tests_failed (run_cases ts))
    by (rewrite !run_cases_failed; f_equal; symmetry;
        now apply filter_length_perm).
  assert (Hres : snd (run_tests_on (Return ts')) = snd (run_tests_on (Return ts)))
    by (rewrite !run_tests_on_result, Hfail; reflexivity).
  repeat split; try assumption.
  - unfold main_on.
    destruct (run_tests_on (Return ts')) as [o' r'].
    destruct (run_tests_on (Return ts)) as [o r].
    cbn [snd] in Hres. subst r'. destruct r; reflexivity.
  - rewrite !run_tests_on_stdout, !run_cases_stdout.
    unfold total_line, passed_line, failed_line. rewrite Hpass, Hfail.
    apply Permutation_app_tail. constructor. now apply Permutation_map.
Qed.

(** X14: the process exits with status 0 exactly when every case of the table has
    actual == expected, and with status 1 otherwise. *)
Theorem exit_status_zero_iff_all_pass (ts : list test_case) :
  snd (main_on (Return ts)) = (if forallb passes ts then 0 else 1).
Proof.
  assert (Hmain : snd (main_on (Return ts))
                  = exit_status (tests_failed (run_cases ts) =? 0)).
  { unfold main_on. pose proof (run_tests_on_result ts) as Hr.
    destruct (run_tests_on (Return ts)) as [o r]. cbn [snd] in Hr.
    subst r. reflexivity. }
  rewrite Hmain, run_cases_failed.
  pose proof (filter_nil_iff (fun t => negb (passes t)) ts) as Hnil.
  destruct (forallb passes ts) eqn:Hall.
  - rewrite forallb_forall in Hall.
    assert (Hz : List.length (filter (fun t => negb (passes t)) ts) = 0%nat).
    { apply Hnil. intros x Hx. now rewrite (Hall x Hx). }
    rewrite Hz. reflexivity.
  - destruct (List.length (filter (fun t => negb (passes t)) ts)) eqn:Hlen.
    + exfalso. assert (Hall' : forallb passes ts = true).
      { apply forallb_forall. intros x Hx.
        pose proof (proj1 Hnil eq_refl x Hx) as Hneg.
        now apply negb_false_iff in Hneg. }
      congruence.
    + reflexivity.
Qed.

Lemma set_expected_failed (ts : list test_case) :
  forall (i : nat) (v : value) (t : test_case),
    nth_error ts i = Some t ->
    Z.of_nat (List.length (filter (fun c => negb (passes c))
                             (set_expected i v ts)))
    = Z.of_nat (List.length (filter (fun c => negb (passes c)) ts))
      - (if passes t then 0 else 1)
      + (if py_eq (actual t) v then 0 else 1).
Proof.
  induction ts as [| c ts IH]; intros i v t Hnth.
  - destruct i; discriminate.
  - destruct i as [| i]; cbn [nth_error set_expected filter] in *.
    + injection Hnth as <-.
      assert (Hp : passes (actual c, v, message c) = py_eq (actual c) v)
        by reflexivity.
      rewrite Hp.
      destruct (passes c), (py_eq (actual c) v); cbn [negb List.length]; lia.
    + specialize (IH i v t Hnth).
      destruct (passes c); cbn [negb List.length]; lia.
Qed.

(** X15: replacing the expected value of one entry changes the failure count by
    that entry alone: it fails afterwards exactly when the new value differs
    (as Python compares) from the actual one.  A swap of [True] for [1] or
    of [False] for [0] is therefore not noticed. *)
Theorem set_expected_effect
  (ts : list test_case) (i : nat) (v : value) (t : test_case) :
  nth_error ts i = Some t ->
  tests_failed (run_cases (set_expected i v ts))
  = tests_failed (run_cases ts)
    - (if py_eq (actual t) (expected t) then 0 else 1)
    + (if py_eq (actual t) v then 0 else 1).
Proof.
  intros Hnth. rewrite !run_cases_failed.
  apply (set_expected_failed ts i v t Hnth).
Qed.

Lemma set_expected_effect_witness :
  tests_failed
    (run_cases (set_expected 0 (VInt 1) [(VBool true, VBool true, "t"%string)]))
  = tests_failed (run_cases [(VBool true, VBool true, "t"%string)]) - 0 + 0.
Proof.
  apply (set_expected_effect [(VBool true, VBool true, "t"%string)] 0
           (VInt 1) (VBool true, VBool true, "t"%string)).
  reflexivity.
Defined.

Lemma run_tests_order_irrelevant_witness :
  snd (main_on (Return [(VInt 1, VInt 2, "b"%string);
                        (VInt 1, VInt 1, "a"%string)]))
  = snd (main_on (Return [(VInt 1, VInt 1, "a"%string);
                          (VInt 1, VInt 2, "b"%string)])).
Proof.
  apply (run_tests_order_irrelevant
           [(VInt 1, VInt 1, "a"%string); (VInt 1, VInt 2, "b"%string)]
           [(VInt 1, VInt 2, "b"%string); (VInt 1, VInt 1, "a"%string)]).
  apply perm_swap.
Defined.

(** ** Binary64 arithmetic on integers below [2^52] *)

Lemma digits2_pos_bounds (p : positive) :
  2 ^ (Z.pos (digits2_pos p) - 1) <= Z.pos p < 2 ^ Z.pos (digits2_pos p).
Proof.
  induction p as [p IH | p IH |]; cbn [digits2_pos].
  - rewrite Pos2Z.inj_succ.
    replace (Z.succ (Z.pos (digits2_pos p)) - 1)
      with (Z.succ (Z.pos (digits2_pos p) - 1)) by lia.
    rewrite !Z.pow_succ_r by lia. lia.
  - rewrite Pos2Z.inj_succ.
    replace (Z.succ (Z.pos (digits2_pos p)) - 1)
      with (Z.succ (Z.pos (digits2_pos p) - 1)) by lia.
    rewrite !Z.pow_succ_r by lia. lia.
  - cbn. lia.
Qed.

Lemma digits2_pos_unique (p : positive) (k : Z) :
  2 ^ (k - 1) <= Z.pos p < 2 ^ k -> Z.pos (digits2_pos p) = k.
Proof.
  intros [Hlo Hhi]. pose proof (digits2_pos_bounds p) as [Dlo Dhi].
  assert (Hk : 0 < k).
  { destruct (Z_lt_le_dec 0 k) as [H | H]; [exact H | exfalso].
    destruct (Z.eq_dec k 0) as [-> | Hne].
    - cbn in Hhi. lia.
    - rewrite Z.pow_neg_r in Hhi by lia. lia. }
  destruct (Z.lt_trichotomy (Z.pos (digits2_pos p)) k) as [Hlt | [Heq | Hgt]].
  - exfalso.
    assert (2 ^ Z.pos (digits2_pos p) <= 2 ^ (k - 1))
      by (apply Z.pow_le_mono_r; lia).
    lia.
  - exact Heq.
  - exfalso.
    assert (2 ^ k <= 2 ^ (Z.pos (digits2_pos p) - 1))
      by (apply Z.pow_le_mono_r; lia).
    lia.
Qed.

Lemma iter_xO_mul (p q : positive) :
  Z.pos (Pos.iter xO p q) = Z.pos p * 2 ^ Z.pos q.
Proof.
  induction q as [| q IH] using Pos.peano_ind.
  - cbn. lia.
  - rewrite Pos.iter_succ, Pos2Z.inj_succ.
    change (Z.pos (Pos.iter xO p q)~0) with (2 * Z.pos (Pos.iter xO p q)).
    rewrite IH.
    rewrite Z.pow_succ_r by lia. ring.
Qed.

(** Rounding a mantissa that already has 53 digits leaves the exponent
    alone and only applies the rounding decision. *)
Lemma binary_round_aux_canonical (s : bool) (m : positive) (e : Z)
      (l : location) :
  Z.pos (digits2_pos m) = 53 ->
  -1074 <= e <= 971 ->
  round_nearest_even (Z.pos m) l < 2 ^ 53 ->
  binary_round_aux prec emax s (Z.pos m) e l
  = S754_finite s (Z.to_pos (round_nearest_even (Z.pos m) l)) e.
Proof.
  intros Hd He Hround.
  assert (Hge : Z.pos m <= round_nearest_even (Z.pos m) l).
  { destruct l as [| []]; cbn [round_nearest_even]; try lia.
    destruct (Z.even (Z.pos m)); lia. }
  pose proof (digits2_pos_bounds m) as Hm. rewrite Hd in Hm.
  remember (round_nearest_even (Z.pos m) l) as m1 eqn:Hm1.
  destruct m1 as [| m1 | m1]; try lia.
  assert (Hd1 : Z.pos (digits2_pos m1) = 53).
  { apply digits2_pos_unique. lia. }
  unfold binary_round_aux, shr_fexp.
  cbn [Zdigits2]. rewrite Hd.
  assert (Hfexp : fexp prec emax (53 + e) - e = 0).
  { unfold fexp, emin, prec, emax. lia. }
  rewrite Hfexp. cbn [shr].
  assert (Hloc : loc_of_shr_record (shr_record_of_loc (Z.pos m) l) = l)
    by (destruct l as [| []]; reflexivity).
  assert (Hshr : shr_m (shr_record_of_loc (Z.pos m) l) = Z.pos m)
    by (destruct l as [| []]; reflexivity).
  rewrite Hloc, Hshr, <- Hm1. cbn [Zdigits2]. rewrite Hd1, Hfexp.
  cbn [shr shr_record_of_loc shr_m].
  assert (Hle : (e <=? emax - prec) = true)
    by (apply Z.leb_le; unfold emax, prec; lia).
  rewrite Hle. reflexivity.
Qed.

(** [float(n)] is exact below [2^53]: the mantissa is [n] shifted up to 53
    digits. *)
Lemma float_of_int_exact (p : positive) :
  Z.pos p < 2 ^ 53 ->
  float_of_int (Z.pos p)
  = Return (S754_finite false
              (Z.to_pos (Z.pos p * 2 ^ (53 - Z.pos (digits2_pos p))))
              (Z.pos (digits2_pos p) - 53)).
Proof.
  intros Hp. pose proof (digits2_pos_bounds p) as Hd.
  remember (Z.pos (digits2_pos p)) as D eqn:HeqD.
  assert (HD : 1 <= D <= 53).
  { split; [lia |].
    destruct (Z_le_gt_dec D 53) as [H | H]; [exact H | exfalso].
    assert (2 ^ 53 <= 2 ^ (D - 1)) by (apply Z.pow_le_mono_r; lia). lia. }
  unfold float_of_int, binary_normalize, binary_round.
  rewrite <- HeqD, Z.add_0_r.
  assert (Hfexp : fexp prec emax D = D - 53)
    by (unfold fexp, emin, prec, emax; lia).
  rewrite Hfexp. unfold shl_align. rewrite Z.sub_0_r.
  assert (Hpos : 0 < 2 ^ (53 - D)) by (apply Z.pow_pos_nonneg; lia).
  destruct (D - 53) as [| q | q] eqn:Hq; [| lia |]; cbv beta iota zeta.
  - assert (H53 : D = 53) by lia.
    rewrite binary_round_aux_canonical; cbn [round_nearest_even]; try lia.
    rewrite H53. change (2 ^ (53 - 53)) with 1.
    rewrite Z.mul_1_r. reflexivity.
  - assert (Hmz : Z.pos (Pos.iter xO p q) = Z.pos p * 2 ^ (53 - D)).
    { rewrite iter_xO_mul. f_equal. f_equal. lia. }
    assert (Hpow : 2 ^ (D - 1) * 2 ^ (53 - D) = 2 ^ 52).
    { rewrite <- Z.pow_add_r by lia. f_equal. lia. }
    assert (Hpow' : 2 ^ D * 2 ^ (53 - D) = 2 ^ 53).
    { rewrite <- Z.pow_add_r by lia. f_equal. lia. }
    rewrite binary_round_aux_canonical; cbn [round_nearest_even].
    + change (PosDef.Pos.iter xO p q) with (Pos.iter xO p q).
      rewrite Hmz. reflexivity.
    + apply digits2_pos_unique.
      change (PosDef.Pos.iter xO p q) with (Pos.iter xO p q).
      rewrite Hmz. nia.
    + lia.
    + change (PosDef.Pos.iter xO p q) with (Pos.iter xO p q).
      rewrite Hmz. nia.
Qed.

(** Scaling the radicand by an even power leaves the integer square root
    recoverable by a floor division, also after a round-up of the scaled
    root when the scale is large enough. *)
Lemma sqrt_scaled_bounds (n K : Z) :
  0 <= n -> 0 < K ->
  Z.sqrt n * K <= Z.sqrt (n * (K * K)) < (Z.sqrt n + 1) * K.
Proof.
  intros Hn HK.
  pose proof (Z.sqrt_spec n Hn) as Ht. cbv zeta in Ht.
  pose proof (Z.sqrt_nonneg n) as Ht0.
  assert (HnK : 0 <= n * (K * K)) by nia.
  pose proof (Z.sqrt_spec _ HnK) as Hq. cbv zeta in Hq.
  pose proof (Z.sqrt_nonneg (n * (K * K))) as Hq0.
  set (t := Z.sqrt n) in *. set (q := Z.sqrt (n * (K * K))) in *.
  split.
  - destruct (Z_le_gt_dec (t * K) q) as [H | H]; [exact H | exfalso].
    assert (q + 1 <= t * K) by lia.
    assert ((q + 1) * (q + 1) <= (t * K) * (t * K)) by nia.
    nia.
  - destruct (Z_lt_le_dec q ((t + 1) * K)) as [H | H]; [exact H | exfalso].
    assert (((t + 1) * K) * ((t + 1) * K) <= q * q) by nia.
    nia.
Qed.

Lemma sqrt_scaled_round_up (n K : Z) :
  0 <= n -> Z.sqrt n + 1 <= K ->
  Z.sqrt (n * (K * K)) < n * (K * K) - Z.sqrt (n * (K * K)) * Z.sqrt (n * (K * K)) ->
  Z.sqrt (n * (K * K)) + 1 < (Z.sqrt n + 1) * K.
Proof.
  intros Hn HK Hr.
  pose proof (Z.sqrt_nonneg n) as Ht0.
  pose proof (sqrt_scaled_bounds n K Hn ltac:(lia)) as [Hlo Hhi].
  pose proof (Z.sqrt_spec n Hn) as Ht. cbv zeta in Ht.
  set (t := Z.sqrt n) in *. set (q := Z.sqrt (n * (K * K))) in *.
  destruct (Z_lt_le_dec (q + 1) ((t + 1) * K)) as [H | H]; [exact H | exfalso].
  assert (Hq : q = (t + 1) * K - 1) by lia.
  assert (Hn' : n + 1 <= (t + 1) * (t + 1)) by lia.
  assert (HnK : (n + 1) * (K * K) <= (t + 1) * (t + 1) * (K * K)).
  { apply Z.mul_le_mono_nonneg_r; nia. }
  rewrite Hq in Hr.
  assert (K * K <= (t + 1) * K - 1 + 1) by nia.
  nia.
Qed.

(** Below [2^52], [int(n ** 0.5)] is the integer square root of [n]. *)
Lemma int_pow_half_exact (n : Z) :
  1 <= n < 2 ^ 52 ->
  (r <- int_pow_half n ;; int_of_float r) = Return (Z.sqrt n).
Proof.
  intros Hn. destruct n as [| p | p]; try lia.
  pose proof (digits2_pos_bounds p) as Hd.
  remember (Z.pos (digits2_pos p)) as D eqn:HeqD.
  assert (HD : 1 <= D <= 52).
  { split; [lia |].
    destruct (Z_le_gt_dec D 52) as [H | H]; [exact H | exfalso].
    assert (2 ^ 52 <= 2 ^ (D - 1)) by (apply Z.pow_le_mono_r; lia). lia. }
  unfold int_pow_half. rewrite float_of_int_exact by lia. cbn [bind].
  rewrite <- HeqD.
  assert (Hpos : 0 < 2 ^ (53 - D)) by (apply Z.pow_pos_nonneg; lia).
  assert (Hpow : 2 ^ (D - 1) * 2 ^ (53 - D) = 2 ^ 52).
  { rewrite <- Z.pow_add_r by lia. f_equal. lia. }
  assert (Hpow' : 2 ^ D * 2 ^ (53 - D) = 2 ^ 53).
  { rewrite <- Z.pow_add_r by lia. f_equal. lia. }
  remember (Z.to_pos (Z.pos p * 2 ^ (53 - D))) as mz eqn:Hmz.
  assert (Hmz' : Z.pos mz = Z.pos p * 2 ^ (53 - D)) by (subst mz; lia).
  assert (Hdz : Z.pos (digits2_pos mz) = 53).
  { apply digits2_pos_unique. rewrite Hmz'. nia. }
  unfold float_pow_half, SFsqrt, SFsqrt_core_binary.
  cbn [Zdigits2]. rewrite Hdz.
  remember (Z.div2 (D + 1)) as h eqn:Hh.
  assert (He' : Z.min (fexp prec emax (Z.div2 (53 + (D - 53) + 1)))
                      (Z.div2 (D - 53)) = h - 53).
  { unfold fexp, emin, prec, emax. subst h.
    replace (53 + (D - 53) + 1) with (D + 1) by lia.
    change IntDef.Z.max with Z.max. rewrite !Z.div2_div.
    Z.div_mod_to_equations. lia. }
  rewrite He'.
  change IntDef.Z.sqrtrem with Z.sqrtrem.
  change IntDef.Z.shiftl with Z.shiftl.
  assert (Hh2 : 2 * h = D \/ 2 * h = D + 1).
  { subst h. rewrite Z.div2_div. Z.div_mod_to_equations. lia. }
  remember (2 ^ (53 - h)) as K eqn:HK.
  assert (HKpos : 0 < K) by (subst K; apply Z.pow_pos_nonneg; lia).
  remember (Z.sqrt (Z.pos p)) as t eqn:Ht.
  assert (Ht0 : 0 <= t) by (subst t; apply Z.sqrt_nonneg).
  assert (Hth : t < 2 ^ h).
  { assert (H2h : 0 <= 2 ^ h) by (apply Z.pow_nonneg; lia).
    subst t. apply (proj1 (Z.sqrt_lt_square (Z.pos p) (2 ^ h) ltac:(lia) H2h)).
    rewrite <- Z.pow_add_r by lia.
    assert (2 ^ D <= 2 ^ (h + h)) by (apply Z.pow_le_mono_r; lia). lia. }
  assert (HtK : t + 1 <= K).
  { assert (2 ^ h <= K) by (subst K; apply Z.pow_le_mono_r; lia). lia. }
  assert (HK53 : (t + 1) * K <= 2 ^ 53).
  { assert (2 ^ h * K = 2 ^ 53)
      by (subst K; rewrite <- Z.pow_add_r by lia; f_equal; lia).
    nia. }
  assert (Hscaled :
    match D - 53 - 2 * (h - 53) with
    | 0 => Z.pos mz
    | Z.pos _ => Z.shiftl (Z.pos mz) (D - 53 - 2 * (h - 53))
    | Z.neg _ => 0
    end = Z.pos p * (K * K)).
  { destruct (D - 53 - 2 * (h - 53)) as [| s | s] eqn:Hs; try lia.
    rewrite Z.shiftl_mul_pow2, Hmz' by lia.
    rewrite <- Z.mul_assoc. f_equal. subst K.
    rewrite <- !Z.pow_add_r by lia. f_equal. lia. }
  rewrite Hscaled.
  assert (Hlow : 2 ^ 52 <= Z.sqrt (Z.pos p * (K * K))).
  { replace (2 ^ 52) with (Z.sqrt (2 ^ 52 * 2 ^ 52))
      by (rewrite Z.sqrt_square; lia).
    apply Z.sqrt_le_mono.
    assert (2 ^ 104 <= Z.pos p * 2 ^ (106 - 2 * h)).
    { destruct Hh2 as [H2 | H2].
      - replace (106 - 2 * h) with ((53 - D) + 53) by lia.
        rewrite Z.pow_add_r by lia. nia.
      - replace (106 - 2 * h) with ((53 - D) + 52) by lia.
        rewrite Z.pow_add_r by lia. nia. }
    assert (K * K = 2 ^ (106 - 2 * h))
      by (subst K; rewrite <- Z.pow_add_r by lia; f_equal; lia).
    nia. }
  pose proof (sqrt_scaled_bounds (Z.pos p) K ltac:(lia) HKpos) as Hb.
  pose proof (sqrt_scaled_round_up (Z.pos p) K ltac:(lia)) as Hup.
  rewrite <- Ht in Hb, Hup. specialize (Hup HtK).
  pose proof (Z.sqrtrem_spec (Z.pos p * (K * K)) ltac:(nia)) as Hspec.
  pose proof (Z.sqrtrem_sqrt (Z.pos p * (K * K))) as Hfst.
  destruct (Z.sqrtrem (Z.pos p * (K * K))) as [q r].
  cbn [fst] in Hfst. rewrite <- Hfst in Hlow, Hb, Hup. clear Hfst.
  destruct Hspec as [Hqr Hr].
  assert (Hfinal : forall q' : Z,
             q <= q' -> q' < (t + 1) * K ->
             int_of_float (S754_finite false (Z.to_pos q') (h - 53))
             = Return t).
  { intros q' Hq1 Hq2. cbn [int_of_float cond_Zopp]. f_equal.
    rewrite Z.shiftl_div_pow2 by lia.
    replace (- (h - 53)) with (53 - h) by lia. rewrite <- HK.
    rewrite Z2Pos.id by lia.
    symmetry. apply (Z.div_unique q' K t (q' - K * t)); lia. }
  destruct q as [| mq | mq]; try lia.
  assert (Hdq : Z.pos (digits2_pos mq) = 53)
    by (apply digits2_pos_unique; lia).
  assert (Hh53 : -1074 <= h - 53 <= 971) by lia.
  destruct (r =? 0) eqn:Hr0.
  - rewrite binary_round_aux_canonical by (cbn [round_nearest_even]; lia).
    apply Hfinal; cbn [round_nearest_even]; lia.
  - apply Z.eqb_neq in Hr0. destruct (r <=? Z.pos mq) eqn:Hrq.
    + rewrite binary_round_aux_canonical by (cbn [round_nearest_even]; lia).
      apply Hfinal; cbn [round_nearest_even]; lia.
    + apply Z.leb_gt in Hrq.
      assert (Hlt : Z.pos mq + 1 < (t + 1) * K) by (apply Hup; lia).
      rewrite binary_round_aux_canonical by (cbn [round_nearest_even]; lia).
      apply Hfinal; cbn [round_nearest_even]; lia.
Qed.

(** ** Integers beyond the range of binary64 *)

Lemma shr_1_mantissa (mrs : shr_record) :
  0 <= shr_m mrs -> shr_m (shr_1 mrs) = shr_m mrs / 2.
Proof.
  destruct mrs as [m r s]. cbn [shr_m]. intros Hm.
  destruct m as [| [p | p |] | p]; cbn [shr_1 shr_m].
  - reflexivity.
  - apply (Z.div_unique (Z.pos p~1) 2 (Z.pos p) 1); lia.
  - apply (Z.div_unique (Z.pos p~0) 2 (Z.pos p) 0); lia.
  - reflexivity.
  - lia.
Qed.

Lemma iter_shr_1_mantissa (k : positive) :
  forall mrs : shr_record,
    0 <= shr_m mrs ->
    shr_m (iter_pos shr_1 k mrs) = shr_m mrs / 2 ^ Z.pos k.
Proof.
  induction k as [k IH | k IH |]; intros mrs Hm; cbn [iter_pos].
  - assert (H1 : 0 <= shr_m (shr_1 mrs))
      by (rewrite shr_1_mantissa by lia; apply Z.div_pos; lia).
    assert (H2 : 0 <= shr_m (iter_pos shr_1 k (shr_1 mrs)))
      by (rewrite IH by lia; apply Z.div_pos; [lia | apply Z.pow_pos_nonneg; lia]).
    rewrite IH, IH, shr_1_mantissa by lia.
    assert (Hp : 0 < 2 ^ Z.pos k) by (apply Z.pow_pos_nonneg; lia).
    rewrite !Z.div_div by lia. f_equal.
    change (Z.pos k~1) with (2 * Z.pos k + 1).
    rewrite Z.pow_add_r, Z.pow_1_r by lia.
    replace (2 * Z.pos k) with (Z.pos k + Z.pos k) by lia.
    rewrite Z.pow_add_r by lia. ring.
  - assert (H2 : 0 <= shr_m (iter_pos shr_1 k mrs))
      by (rewrite IH by lia; apply Z.div_pos; [lia | apply Z.pow_pos_nonneg; lia]).
    rewrite IH, IH by lia.
    assert (Hp : 0 < 2 ^ Z.pos k) by (apply Z.pow_pos_nonneg; lia).
    rewrite !Z.div_div by lia. f_equal.
    change (Z.pos k~0) with (2 * Z.pos k).
    replace (2 * Z.pos k) with (Z.pos k + Z.pos k) by lia.
    rewrite Z.pow_add_r by lia. ring.
  - rewrite shr_1_mantissa by lia. reflexivity.
Qed.

(** Shifting a positive mantissa down to 53 digits (or leaving it alone)
    keeps it positive and never lowers the exponent. *)
Lemma shr_fexp_exact (m : positive) (e : Z) :
  -1074 <= e ->
  let '(mrs, e') := shr_fexp prec emax (Z.pos m) e loc_Exact in
  0 < shr_m mrs
  /\ e' = Z.max e (fexp prec emax (Z.pos (digits2_pos m) + e)).
Proof.
  intros He. unfold shr_fexp, shr. cbn [Zdigits2 shr_record_of_loc].
  pose proof (digits2_pos_bounds m) as Hd.
  remember (Z.pos (digits2_pos m)) as D eqn:HeqD.
  assert (HD : 1 <= D) by lia.
  destruct (fexp prec emax (D + e) - e) as [| k | k] eqn:Hk;
    cbn [shr_m]; try lia.
  split; [| lia].
  rewrite iter_shr_1_mantissa by (cbn; lia). cbn [shr_m].
  assert (Hk' : Z.pos k <= D - 1)
    by (unfold fexp, emin, prec, emax in Hk; lia).
  apply Z.div_str_pos. split; [apply Z.pow_pos_nonneg; lia |].
  assert (2 ^ Z.pos k <= 2 ^ (D - 1)) by (apply Z.pow_le_mono_r; lia).
  lia.
Qed.

Lemma round_nearest_even_ge (m : Z) (l : location) :
  m <= round_nearest_even m l.
Proof.
  destruct l as [| []]; cbn [round_nearest_even]; try lia.
  destruct (Z.even m); lia.
Qed.

Lemma float_of_int_overflow (n : Z) :
  2 ^ 1024 <= n -> float_of_int n = Raise OverflowError.
Proof.
  intros Hn. destruct n as [| p | p]; try lia.
  pose proof (digits2_pos_bounds p) as Hd.
  remember (Z.pos (digits2_pos p)) as D eqn:HeqD.
  assert (HD : 1025 <= D).
  { destruct (Z_le_gt_dec 1025 D) as [H | H]; [exact H | exfalso].
    assert (2 ^ D <= 2 ^ 1024) by (apply Z.pow_le_mono_r; lia). lia. }
  unfold float_of_int, binary_normalize, binary_round.
  rewrite <- HeqD, Z.add_0_r.
  assert (Hfexp : fexp prec emax D = D - 53)
    by (unfold fexp, emin, prec, emax; lia).
  rewrite Hfexp. unfold shl_align. rewrite Z.sub_0_r.
  destruct (D - 53) as [| k | k] eqn:Hk; try lia. cbv beta iota zeta.
  unfold binary_round_aux.
  pose proof (shr_fexp_exact p 0 ltac:(lia)) as H1.
  destruct (shr_fexp prec emax (Z.pos p) 0 loc_Exact) as [mrs' e'].
  destruct H1 as [Hm' He']. rewrite <- HeqD, Z.add_0_r, Hfexp in He'.
  pose proof (round_nearest_even_ge (shr_m mrs') (loc_of_shr_record mrs'))
    as Hround.
  destruct (round_nearest_even (shr_m mrs') (loc_of_shr_record mrs'))
    as [| m1 | m1]; try lia.
  pose proof (shr_fexp_exact m1 e' ltac:(lia)) as H2.
  destruct (shr_fexp prec emax (Z.pos m1) e' loc_Exact) as [mrs'' e''].
  destruct H2 as [Hm'' He''].
  destruct (shr_m mrs'') as [| m2 | m2]; try lia.
  assert (Hbig : (e'' <=? emax - prec) = false)
    by (apply Z.leb_gt; unfold emax, prec; lia).
  rewrite Hbig. reflexivity.
Qed.

(** X3: every integer n >= 2^1024 makes [is_prime n] raise OverflowError. *)
Theorem is_prime_raises_from_two_pow_1024 (n : Z) :
  2 ^ 1024 <= n -> is_prime n = Raise OverflowError.
Proof.
  intros Hn. unfold is_prime, int_pow_half.
  rewrite float_of_int_overflow by exact Hn.
  destruct (n <? 2) eqn:H2; [| reflexivity].
  apply Z.ltb_lt in H2. lia.
Qed.

Lemma is_prime_raises_from_two_pow_1024_witness :
  is_prime (2 ^ 1025) = Raise OverflowError.
Proof.
  apply (is_prime_raises_from_two_pow_1024 (2 ^ 1025)).
  vm_compute. discriminate.
Defined.

(** ** Trial division *)

Lemma range_In (lo hi i : Z) : In i (range lo hi) <-> lo <= i < hi.
Proof.
  unfold range. rewrite in_map_iff. split.
  - intros (k & <- & Hk). apply in_seq in Hk. lia.
  - intros Hi. exists (Z.to_nat (i - lo)). split; [lia |].
    apply in_seq. lia.
Qed.

Lemma is_prime_loop_true (n : Z) (candidates : list Z) :
  is_prime_loop n candidates = true
  <-> forall i, In i candidates -> n mod i <> 0.
Proof.
  induction candidates as [| c rest IH]; cbn [is_prime_loop].
  - split; [intros _ i [] | reflexivity].
  - destruct (n mod c =? 0) eqn:Hc.
    + apply Z.eqb_eq in Hc. split; [discriminate |].
      intros H. exfalso. apply (H c); [now left | exact Hc].
    + apply Z.eqb_neq in Hc. rewrite IH. split.
      * intros H i [<- | Hi]; auto.
      * intros H i Hi. apply H. now right.
Qed.

(** A number above 1 is prime exactly when no integer from 2 up to its
    integer square root divides it. *)
Lemma prime_iff_no_small_divisor (n : Z) :
  2 <= n ->
  prime n <-> forall i, 2 <= i <= Z.sqrt n -> n mod i <> 0.
Proof.
  intros Hn.
  pose proof (Z.sqrt_spec n ltac:(lia)) as Hs. cbv zeta in Hs.
  pose proof (Z.sqrt_nonneg n) as Hs0.
  split.
  - intros Hp i Hi Hmod.
    apply Z.mod_divide in Hmod; [| lia].
    assert (Hlt : i < n) by nia.
    apply prime_alt in Hp. destruct Hp as [_ Hp].
    apply (Hp i); [lia | exact Hmod].
  - intros Hnone. apply prime_alt. split; [lia |].
    intros a Ha [c Hc].
    assert (Hc1 : 1 < c < n) by nia.
    destruct (Z_le_gt_dec a (Z.sqrt n)) as [Hle | Hgt].
    + apply (Hnone a); [lia |]. apply Z.mod_divide; [lia |]. now exists c.
    + assert (Hcs : c <= Z.sqrt n) by nia.
      apply (Hnone c); [lia |]. apply Z.mod_divide; [lia |].
      exists a. lia.
Qed.

(** X1: for every integer n below 2^52, [is_prime n] returns a Boolean, and
    it is true if and only if n is a prime number. *)
Theorem is_prime_correct_below_two_pow_52 (n : Z) :
  n < 2 ^ 52 ->
  exists b : bool, is_prime n = Return b /\ (b = true <-> prime n).
Proof.
  intros Hn. unfold is_prime. destruct (n <? 2) eqn:H2.
  - apply Z.ltb_lt in H2. exists false. split; [reflexivity |].
    split; [discriminate |]. intros Hp.
    apply prime_alt, Z.prime_ge_2 in Hp. lia.
  - apply Z.ltb_ge in H2.
    pose proof (int_pow_half_exact n ltac:(lia)) as Hsqrt.
    destruct (int_pow_half n) as [x | e]; cbn [bind] in *; [| discriminate].
    rewrite Hsqrt. cbn [bind].
    eexists. split; [reflexivity |].
    rewrite is_prime_loop_true, prime_iff_no_small_divisor by lia.
    split; intros H i Hi; apply H.
    + apply range_In. lia.
    + apply range_In in Hi. lia.
Qed.

Lemma is_prime_correct_below_two_pow_52_witness :
  exists b : bool, is_prime 97 = Return b /\ (b = true <-> prime 97).
Proof.
  apply (is_prime_correct_below_two_pow_52 97). reflexivity.
Defined.

(** ** Rounding an integer of more than 53 digits *)

Lemma iter_pos_nat {A : Type} (f : A -> A) (p : positive) :
  forall x : A, iter_pos f p x = Nat.iter (Pos.to_nat p) f x.
Proof.
  induction p as [p IH | p IH |]; intros x; cbn [iter_pos].
  - rewrite !IH, Pos2Nat.inj_xI.
    replace (S (2 * Pos.to_nat p)) with (Pos.to_nat p + S (Pos.to_nat p))%nat
      by lia.
    rewrite Nat.iter_add, Nat.iter_succ_r. reflexivity.
  - rewrite !IH, Pos2Nat.inj_xO.
    replace (2 * Pos.to_nat p)%nat with (Pos.to_nat p + Pos.to_nat p)%nat
      by lia.
    rewrite Nat.iter_add. reflexivity.
  - reflexivity.
Qed.

Lemma shr_1_nonneg (m : Z) (r s : bool) :
  0 <= m ->
  shr_1 {| shr_m := m; shr_r := r; shr_s := s |}
  = {| shr_m := m / 2; shr_r := Z.odd m; shr_s := r || s |}.
Proof.
  intros Hm. destruct m as [| [p | p |] | p]; cbn [shr_1 Z.odd]; try lia.
  - reflexivity.
  - f_equal. apply (Z.div_unique (Z.pos p~1) 2 (Z.pos p) 1); lia.
  - f_equal. apply (Z.div_unique (Z.pos p~0) 2 (Z.pos p) 0); lia.
  - reflexivity.
Qed.

(** The record after [k + 1] one-bit shifts: the quotient, the round bit
    (the remainder reaches one half) and the sticky bit (something was lost
    below the round bit). *)
Lemma shr_iter (k : nat) (m : Z) (r0 s0 : bool) :
  0 <= m ->
  Nat.iter (S k) shr_1 {| shr_m := m; shr_r := r0; shr_s := s0 |}
  = {| shr_m := m / 2 ^ Z.of_nat (S k);
       shr_r := 2 ^ Z.of_nat k <=? m mod 2 ^ Z.of_nat (S k);
       shr_s := negb (m mod 2 ^ Z.of_nat k =? 0) || r0 || s0 |}.
Proof.
  intros Hm. induction k as [| k IH].
  - cbn [Nat.iter]. rewrite shr_1_nonneg by lia.
    change (2 ^ Z.of_nat 1) with 2. change (2 ^ Z.of_nat 0) with 1.
    rewrite Z.mod_1_r. cbn [Z.eqb negb orb].
    f_equal. rewrite Zodd_mod. 
    pose proof (Z.mod_pos_bound m 2 ltac:(lia)) as Hb.
    destruct (Z.eq_dec (m mod 2) 1) as [H1 | H1].
    + rewrite H1. reflexivity.
    + replace (m mod 2) with 0 by lia. reflexivity.
  - change (Nat.iter (S (S k)) shr_1 ?x) with (shr_1 (Nat.iter (S k) shr_1 x)).
    rewrite IH.
    assert (Hp : 0 < 2 ^ Z.of_nat (S k)) by (apply Z.pow_pos_nonneg; lia).
    assert (Hpk : 0 < 2 ^ Z.of_nat k) by (apply Z.pow_pos_nonneg; lia).
    rewrite shr_1_nonneg by (apply Z.div_pos; lia).
    assert (Hpow : 2 ^ Z.of_nat (S (S k)) = 2 ^ Z.of_nat (S k) * 2).
    { rewrite (Nat2Z.inj_succ (S k)), Z.pow_succ_r by lia. ring. }
    assert (Hpow' : 2 ^ Z.of_nat (S k) = 2 ^ Z.of_nat k * 2).
    { rewrite (Nat2Z.inj_succ k), Z.pow_succ_r by lia. ring. }
    f_equal.
    + rewrite Hpow, Z.div_div by lia. reflexivity.
    + rewrite Hpow, Z.rem_mul_r by lia.
      pose proof (Z.mod_pos_bound m (2 ^ Z.of_nat (S k)) Hp) as Hb.
      rewrite Zodd_mod.
      pose proof (Z.mod_pos_bound (m / 2 ^ Z.of_nat (S k)) 2 ltac:(lia)) as Hb2.
      destruct (Z.eq_dec ((m / 2 ^ Z.of_nat (S k)) mod 2) 1) as [H1 | H1].
      * rewrite H1. cbn [Z.eqb Pos.eqb]. symmetry. apply Z.leb_le. lia.
      * replace ((m / 2 ^ Z.of_nat (S k)) mod 2) with 0 by lia.
        cbn [Z.eqb]. symmetry. apply Z.leb_gt. lia.
    + rewrite Hpow', Z.rem_mul_r by lia.
      pose proof (Z.mod_pos_bound m (2 ^ Z.of_nat k) Hpk) as Hb.
      pose proof (Z.mod_pos_bound (m / 2 ^ Z.of_nat k) 2 ltac:(lia)) as Hb2.
      remember (m mod 2 ^ Z.of_nat k) as x eqn:Hx.
      remember ((m / 2 ^ Z.of_nat k) mod 2) as d eqn:Hd.
      remember (2 ^ Z.of_nat k) as P eqn:HP.
      assert (Hd01 : d = 0 \/ d = 1) by lia.
      destruct Hd01 as [-> | ->];
        destruct (Z.leb_spec P (x + P * 0)), (Z.leb_spec P (x + P * 1)),
          (Z.eqb_spec x 0), (Z.eqb_spec (x + P * 0) 0),
          (Z.eqb_spec (x + P * 1) 0);
        cbn [negb orb]; try reflexivity; exfalso; lia.
Qed.

(** The first shift of [binary_round_aux] on an integer of [53 + k] digits,
    [k >= 1]: [k] bits are dropped. *)
Lemma shr_fexp_integer (p : positive) (k : Z) :
  1 <= k ->
  Z.pos (digits2_pos p) = 53 + k ->
  shr_fexp prec emax (Z.pos p) 0 loc_Exact
  = ({| shr_m := Z.pos p / 2 ^ k;
        shr_r := 2 ^ (k - 1) <=? Z.pos p mod 2 ^ k;
        shr_s := negb (Z.pos p mod 2 ^ (k - 1) =? 0) |}, k).
Proof.
  intros Hk HD. unfold shr_fexp. cbn [Zdigits2 shr_record_of_loc].
  rewrite HD.
  assert (Hfexp : fexp prec emax (53 + k + 0) - 0 = k)
    by (unfold fexp, emin, prec, emax; lia).
  rewrite Hfexp. destruct k as [| kp | kp]; try lia.
  cbn [shr]. rewrite iter_pos_nat.
  destruct (Pos.to_nat kp) as [| k0] eqn:Hk0; [lia |].
  rewrite shr_iter by lia.
  replace (Z.of_nat (S k0)) with (Z.pos kp) by lia.
  replace (Z.of_nat k0) with (Z.pos kp - 1) by lia.
  rewrite !orb_false_r. reflexivity.
Qed.

(** The second shift of [binary_round_aux]: nothing to do for a mantissa of
    53 digits, one bit for the mantissa [2^53] that a round-up can give. *)
Lemma shr_fexp_rounded (m : Z) (e : Z) :
  -1074 <= e ->
  2 ^ 52 <= m <= 2 ^ 53 ->
  shr_fexp prec emax m e loc_Exact
  = if m <? 2 ^ 53
    then ({| shr_m := m; shr_r := false; shr_s := false |}, e)
    else ({| shr_m := 2 ^ 52; shr_r := false; shr_s := false |}, e + 1).
Proof.
  intros He Hm. destruct m as [| m | m]; try lia.
  destruct (Z.pos m <? 2 ^ 53) eqn:Hlt.
  - apply Z.ltb_lt in Hlt.
    assert (Hd : Z.pos (digits2_pos m) = 53)
      by (apply digits2_pos_unique; lia).
    unfold shr_fexp. cbn [Zdigits2 shr_record_of_loc]. rewrite Hd.
    assert (Hfexp : fexp prec emax (53 + e) - e = 0)
      by (unfold fexp, emin, prec, emax; lia).
    rewrite Hfexp. reflexivity.
  - apply Z.ltb_ge in Hlt.
    assert (Hm53 : Z.pos m = 2 ^ 53) by lia.
    assert (Hd : Z.pos (digits2_pos m) = 54)
      by (apply digits2_pos_unique; rewrite Hm53; split;
          [apply Z.le_refl | reflexivity]).
    unfold shr_fexp. cbn [Zdigits2 shr_record_of_loc]. rewrite Hd.
    assert (Hfexp : fexp prec emax (54 + e) - e = 1)
      by (unfold fexp, emin, prec, emax; lia).
    rewrite Hfexp. cbn [shr iter_pos].
    rewrite shr_1_nonneg by lia. rewrite Hm53. reflexivity.
Qed.

Lemma round_nearest_even_integer (n k : Z) :
  0 <= n -> 1 <= k ->
  round_nearest_even (n / 2 ^ k)
    (loc_of_shr_record
       {| shr_m := n / 2 ^ k;
          shr_r := 2 ^ (k - 1) <=? n mod 2 ^ k;
          shr_s := negb (n mod 2 ^ (k - 1) =? 0) |})
  = rounded_mantissa n k.
Proof.
  intros Hn Hk. unfold rounded_mantissa, rounds_up.
  assert (HP : 0 < 2 ^ (k - 1)) by (apply Z.pow_pos_nonneg; lia).
  assert (Hpow : 2 ^ k = 2 ^ (k - 1) * 2).
  { replace k with (Z.succ (k - 1)) at 1 by lia.
    rewrite Z.pow_succ_r by lia. ring. }
  remember (n / 2 ^ k) as q eqn:Hq.
  assert (Hrem : n mod 2 ^ k
                 = n mod 2 ^ (k - 1) + 2 ^ (k - 1) * ((n / 2 ^ (k - 1)) mod 2))
    by (rewrite Hpow; apply Z.rem_mul_r; lia).
  rewrite Hrem.
  pose proof (Z.mod_pos_bound n (2 ^ (k - 1)) HP) as Hb.
  pose proof (Z.mod_pos_bound (n / 2 ^ (k - 1)) 2 ltac:(lia)) as Hb2.
  remember (n mod 2 ^ (k - 1)) as x eqn:Hx.
  remember ((n / 2 ^ (k - 1)) mod 2) as d eqn:Hd.
  remember (2 ^ (k - 1)) as P eqn:HeqP.
  rewrite <- Z.negb_even.
  assert (Hd01 : d = 0 \/ d = 1) by lia.
  destruct Hd01 as [-> | ->];
    destruct (Z.leb_spec P (x + P * 0)), (Z.leb_spec P (x + P * 1)),
      (Z.ltb_spec P (x + P * 0)), (Z.ltb_spec P (x + P * 1)),
      (Z.eqb_spec x 0), (Z.eqb_spec (x + P * 0) P),
      (Z.eqb_spec (x + P * 1) P);
    cbn [negb orb andb loc_of_shr_record round_nearest_even];
    try lia; destruct (Z.even q); reflexivity.
Qed.

Lemma rounded_mantissa_bounds (n k : Z) :
  1 <= k -> 2 ^ (52 + k) <= n < 2 ^ (53 + k) ->
  2 ^ 52 <= n / 2 ^ k < 2 ^ 53
  /\ n / 2 ^ k <= rounded_mantissa n k <= n / 2 ^ k + 1.
Proof.
  intros Hk Hn.
  assert (HP : 0 < 2 ^ k) by (apply Z.pow_pos_nonneg; lia).
  rewrite !Z.pow_add_r in Hn by lia.
  split.
  - split.
    + apply Z.div_le_lower_bound; lia.
    + apply Z.div_lt_upper_bound; lia.
  - unfold rounded_mantissa. destruct (rounds_up n k); lia.
Qed.

(** [float(n)] for an integer of [53 + k] digits, [k >= 1]: the mantissa is
    [n] without its last [k] bits, rounded; a round-up to [2^53] moves to the
    next exponent; an exponent above 971 is an overflow. *)
Lemma float_of_int_large (n k : Z) :
  1 <= k -> 2 ^ (52 + k) <= n < 2 ^ (53 + k) ->
  float_of_int n
  = if rounded_mantissa n k <? 2 ^ 53
    then if k <=? 971
         then Return (S754_finite false (Z.to_pos (rounded_mantissa n k)) k)
         else Raise OverflowError
    else if k + 1 <=? 971
         then Return (S754_finite false (Z.to_pos (2 ^ 52)) (k + 1))
         else Raise OverflowError.
Proof.
  intros Hk Hn.
  pose proof (rounded_mantissa_bounds n k Hk Hn) as [Hq Hm].
  assert (Hn0 : 0 < n).
  { assert (0 < 2 ^ (52 + k)) by (apply Z.pow_pos_nonneg; lia). lia. }
  destruct n as [| p | p]; try lia.
  assert (HD : Z.pos (digits2_pos p) = 53 + k).
  { apply digits2_pos_unique. replace (53 + k - 1) with (52 + k) by lia.
    exact Hn. }
  unfold float_of_int, binary_normalize, binary_round.
  rewrite HD, Z.add_0_r.
  assert (Hfexp : fexp prec emax (53 + k) = k)
    by (unfold fexp, emin, prec, emax; lia).
  rewrite Hfexp. unfold shl_align. rewrite Z.sub_0_r.
  destruct k as [| kp | kp] eqn:Hkp; try lia. cbv beta iota zeta.
  rewrite <- Hkp in *. clear Hkp kp.
  unfold binary_round_aux.
  rewrite (shr_fexp_integer p k Hk HD).
  cbn [shr_m].
  rewrite (round_nearest_even_integer (Z.pos p) k ltac:(lia) Hk).
  rewrite (shr_fexp_rounded (rounded_mantissa (Z.pos p) k) k) by lia.
  change (emax - prec) with 971.
  destruct (rounded_mantissa (Z.pos p) k <? 2 ^ 53) eqn:Hlt; cbn [shr_m].
  - apply Z.ltb_lt in Hlt.
    destruct (rounded_mantissa (Z.pos p) k) as [| m | m] eqn:Hm1; try lia.
    destruct (k <=? 971); reflexivity.
  - change (2 ^ 52) with (Z.pos (Z.to_pos (2 ^ 52))).
    cbv iota.
    destruct (k + 1 <=? 971); reflexivity.
Qed.

(** The exact domain of the conversion: it overflows from
    [2^1024 - 2^970] on, the first integer that rounds to [2^1024]. *)
Lemma float_of_int_overflow_iff (n : Z) :
  1 <= n ->
  float_of_int n = Raise OverflowError <-> 2 ^ 1024 - 2 ^ 970 <= n.
Proof.
  intros Hn1.
  destruct (Z_lt_le_dec n (2 ^ 53)) as [Hsmall | Hbig].
  - destruct n as [| p | p]; try lia.
    rewrite float_of_int_exact by lia. split; [discriminate | lia].
  - destruct (Z_lt_le_dec n (2 ^ 1024)) as [Hlt | Hge].
    2:{ split; [lia | intros _; now apply float_of_int_overflow]. }
    destruct n as [| p | p]; try lia.
    pose proof (digits2_pos_bounds p) as Hd.
    remember (Z.pos (digits2_pos p) - 53) as k eqn:Hk.
    assert (Hk1 : 1 <= k <= 971).
    { split.
      - destruct (Z_le_gt_dec 1 k) as [H | H]; [exact H | exfalso].
        assert (2 ^ Z.pos (digits2_pos p) <= 2 ^ 53)
          by (apply Z.pow_le_mono_r; lia).
        lia.
      - destruct (Z_le_gt_dec k 971) as [H | H]; [exact H | exfalso].
        assert (2 ^ 1024 <= 2 ^ (Z.pos (digits2_pos p) - 1))
          by (apply Z.pow_le_mono_r; lia).
        lia. }
    assert (Hrange : 2 ^ (52 + k) <= Z.pos p < 2 ^ (53 + k)).
    { replace (52 + k) with (Z.pos (digits2_pos p) - 1) by lia.
      replace (53 + k) with (Z.pos (digits2_pos p)) by lia. exact Hd. }
    rewrite (float_of_int_large (Z.pos p) k) by lia.
    pose proof (rounded_mantissa_bounds (Z.pos p) k ltac:(lia) Hrange)
      as [Hq Hm].
    assert (Hle : (k <=? 971) = true) by (apply Z.leb_le; lia).
    rewrite Hle.
    destruct (rounded_mantissa (Z.pos p) k <? 2 ^ 53) eqn:Hlt53.
    + (* no carry out of the mantissa: finite *)
      split; [discriminate |]. intros Hthr. exfalso.
      apply Z.ltb_lt in Hlt53.
      assert (Hk971 : k = 971).
      { destruct (Z.eq_dec k 971) as [H | H]; [exact H | exfalso].
        assert (2 ^ (53 + k) <= 2 ^ 1023) by (apply Z.pow_le_mono_r; lia).
        lia. }
      subst k. rewrite Hk971 in *.
      pose proof (Z.div_mod (Z.pos p) (2 ^ 971) ltac:(lia)) as Hdm.
      pose proof (Z.mod_pos_bound (Z.pos p) (2 ^ 971) ltac:(lia)) as Hrem.
      assert (Hq53 : Z.pos p / 2 ^ 971 = 2 ^ 53 - 1) by lia.
      unfold rounded_mantissa, rounds_up in Hlt53, Hm.
      rewrite Hq53 in Hlt53.
      change (971 - 1) with 970 in Hlt53.
      change (Z.odd (2 ^ 53 - 1)) with true in Hlt53.
      rewrite andb_true_r in Hlt53.
      destruct (Z.ltb_spec (2 ^ 970) (Z.pos p mod 2 ^ 971));
        destruct (Z.eqb_spec (Z.pos p mod 2 ^ 971) (2 ^ 970));
        cbn [orb] in Hlt53; lia.
    + (* the mantissa rounds up to 2^53 *)
      apply Z.ltb_ge in Hlt53.
      assert (Hq53 : Z.pos p / 2 ^ k = 2 ^ 53 - 1) by lia.
      assert (Hup : rounds_up (Z.pos p) k = true).
      { unfold rounded_mantissa in Hlt53.
        destruct (rounds_up (Z.pos p) k); [reflexivity | lia]. }
      pose proof (Z.div_mod (Z.pos p) (2 ^ k) ltac:(lia)) as Hdm.
      pose proof (Z.mod_pos_bound (Z.pos p) (2 ^ k) ltac:(lia)) as Hrem.
      assert (Hhalf : 2 ^ (k - 1) <= Z.pos p mod 2 ^ k).
      { unfold rounds_up in Hup.
        destruct (Z.ltb_spec (2 ^ (k - 1)) (Z.pos p mod 2 ^ k));
          destruct (Z.eqb_spec (Z.pos p mod 2 ^ k) (2 ^ (k - 1)));
          cbn [orb andb] in Hup; try lia; discriminate. }
      destruct (Z.leb_spec (k + 1) 971) as [Hk' | Hk'].
      * split; [discriminate |]. intros Hthr. exfalso.
        assert (2 ^ (53 + k) <= 2 ^ 1023) by (apply Z.pow_le_mono_r; lia).
        lia.
      * split; [| reflexivity]. intros _.
        assert (Hk971 : k = 971) by lia. rewrite Hk971 in *.
        change (971 - 1) with 970 in Hhalf. lia.
Qed.

(** From [2^52] on, a conversion that succeeds gives a mantissa of 53 digits
    and an exponent [e >= 0] with [2^(51+e) <= n]. *)
Lemma float_of_int_shape (n : Z) (x : spec_float) :
  2 ^ 52 <= n ->
  float_of_int n = Return x ->
  exists (m : positive) (e : Z),
    x = S754_finite false m e
    /\ 2 ^ 52 <= Z.pos m < 2 ^ 53
    /\ 0 <= e <= 971
    /\ 2 ^ (51 + e) <= n.
Proof.
  intros Hn Hx. destruct n as [| p | p]; try lia.
  pose proof (digits2_pos_bounds p) as Hd.
  destruct (Z_lt_le_dec (Z.pos p) (2 ^ 53)) as [Hsmall | Hbig].
  - rewrite float_of_int_exact in Hx by lia.
    assert (HD : Z.pos (digits2_pos p) = 53)
      by (apply digits2_pos_unique; lia).
    rewrite HD in Hx. injection Hx as <-.
    eexists. eexists. split; [reflexivity |]. repeat split; lia.
  - remember (Z.pos (digits2_pos p) - 53) as k eqn:Hk.
    assert (Hk1 : 1 <= k).
    { destruct (Z_le_gt_dec 1 k) as [H | H]; [exact H | exfalso].
      assert (2 ^ Z.pos (digits2_pos p) <= 2 ^ 53)
        by (apply Z.pow_le_mono_r; lia).
      lia. }
    assert (Hrange : 2 ^ (52 + k) <= Z.pos p < 2 ^ (53 + k)).
    { replace (52 + k) with (Z.pos (digits2_pos p) - 1) by lia.
      replace (53 + k) with (Z.pos (digits2_pos p)) by lia. exact Hd. }
    rewrite (float_of_int_large (Z.pos p) k) in Hx by lia.
    pose proof (rounded_mantissa_bounds (Z.pos p) k ltac:(lia) Hrange)
      as [Hq Hm].
    assert (Hmono : 2 ^ (51 + k) <= 2 ^ (52 + k))
      by (apply Z.pow_le_mono_r; lia).
    destruct (rounded_mantissa (Z.pos p) k <? 2 ^ 53) eqn:Hlt53.
    + apply Z.ltb_lt in Hlt53.
      destruct (Z.leb_spec k 971); [| discriminate].
      injection Hx as <-. eexists. exists k. split; [reflexivity |].
      rewrite Z2Pos.id by lia. repeat split; lia.
    + destruct (Z.leb_spec (k + 1) 971); [| discriminate].
      injection Hx as <-. eexists. exists (k + 1). split; [reflexivity |].
      replace (51 + (k + 1)) with (52 + k) by lia.
      repeat split; try lia; reflexivity.
Qed.

Lemma shiftl_bounds (x h lo hi : Z) :
  0 <= lo -> - lo <= h -> 2 ^ lo <= x <= 2 ^ hi ->
  2 ^ (lo + h) <= Z.shiftl x h <= 2 ^ (hi + h).
Proof.
  intros Hlo Hh Hx.
  assert (Hhi : lo <= hi).
  { destruct (Z_le_gt_dec lo hi) as [H | H]; [exact H | exfalso].
    assert (0 < 2 ^ lo) by (apply Z.pow_pos_nonneg; lia).
    destruct (Z_lt_le_dec hi 0).
    - rewrite (Z.pow_neg_r 2 hi) in Hx by lia. lia.
    - assert (2 ^ hi < 2 ^ lo) by (apply Z.pow_lt_mono_r; lia). lia. }
  destruct (Z_le_gt_dec 0 h) as [Hpos | Hneg].
  - rewrite Z.shiftl_mul_pow2 by lia.
    rewrite !Z.pow_add_r by lia.
    assert (0 < 2 ^ h) by (apply Z.pow_pos_nonneg; lia). nia.
  - rewrite Z.shiftl_div_pow2 by lia.
    assert (HP : 0 < 2 ^ (- h)) by (apply Z.pow_pos_nonneg; lia).
    assert (H1 : 2 ^ lo = 2 ^ (lo + h) * 2 ^ (- h))
      by (rewrite <- Z.pow_add_r by lia; f_equal; lia).
    assert (H2 : 2 ^ hi = 2 ^ (hi + h) * 2 ^ (- h))
      by (rewrite <- Z.pow_add_r by lia; f_equal; lia).
    split.
    + apply Z.div_le_lower_bound; lia.
    + apply Z.div_le_upper_bound; lia.
Qed.

(** Rounding a mantissa of 53 digits at its own exponent: the rounding
    decision is applied, and a carry out of the mantissa moves to the next
    exponent. *)
Lemma binary_round_aux_53 (s : bool) (m : positive) (e : Z) (l : location) :
  2 ^ 52 <= Z.pos m < 2 ^ 53 ->
  -1074 <= e <= 970 ->
  binary_round_aux prec emax s (Z.pos m) e l
  = if round_nearest_even (Z.pos m) l <? 2 ^ 53
    then S754_finite s (Z.to_pos (round_nearest_even (Z.pos m) l)) e
    else S754_finite s (Z.to_pos (2 ^ 52)) (e + 1).
Proof.
  intros Hm He.
  pose proof (round_nearest_even_ge (Z.pos m) l) as Hge.
  assert (Hle : round_nearest_even (Z.pos m) l <= Z.pos m + 1).
  { destruct l as [| []]; cbn [round_nearest_even]; try lia.
    destruct (Z.even (Z.pos m)); lia. }
  assert (Hd : Z.pos (digits2_pos m) = 53)
    by (apply digits2_pos_unique; lia).
  unfold binary_round_aux at 1. unfold shr_fexp at 1.
  cbn [Zdigits2]. rewrite Hd.
  assert (Hfexp : fexp prec emax (53 + e) - e = 0)
    by (unfold fexp, emin, prec, emax; lia).
  rewrite Hfexp. cbn [shr].
  assert (Hloc : loc_of_shr_record (shr_record_of_loc (Z.pos m) l) = l)
    by (destruct l as [| []]; reflexivity).
  assert (Hshr : shr_m (shr_record_of_loc (Z.pos m) l) = Z.pos m)
    by (destruct l as [| []]; reflexivity).
  rewrite Hloc, Hshr.
  rewrite (shr_fexp_rounded (round_nearest_even (Z.pos m) l) e) by lia.
  change (emax - prec) with 971.
  destruct (round_nearest_even (Z.pos m) l <? 2 ^ 53) eqn:Hlt; cbn [shr_m].
  - destruct (round_nearest_even (Z.pos m) l) as [| m1 | m1]; try lia.
    destruct (Z.leb_spec e 971); [reflexivity | lia].
  - change (2 ^ 52) with (Z.pos (Z.to_pos (2 ^ 52))). cbv iota.
    destruct (Z.leb_spec (e + 1) 971); [reflexivity | lia].
Qed.

(** The loop bound for a float with a mantissa of 53 digits and an exponent
    [e >= 0]: [int(x ** 0.5)] returns, between [2^(26 + e/2)] and
    [2^(27 + e/2)]. *)
Lemma int_sqrt_float_bounds (m : positive) (e : Z) :
  2 ^ 52 <= Z.pos m < 2 ^ 53 ->
  0 <= e <= 971 ->
  exists k : Z,
    int_of_float (float_pow_half (S754_finite false m e)) = Return k
    /\ 2 ^ (26 + e / 2) <= k <= 2 ^ (27 + e / 2).
Proof.
  intros Hm He.
  assert (Hd : Z.pos (digits2_pos m) = 53)
    by (apply digits2_pos_unique; lia).
  unfold float_pow_half, SFsqrt, SFsqrt_core_binary.
  cbn [Zdigits2]. rewrite Hd.
  remember (e / 2) as g eqn:Hg.
  assert (Hg2 : e = 2 * g \/ e = 2 * g + 1)
    by (subst g; Z.div_mod_to_equations; lia).
  assert (He' : Z.min (fexp prec emax (Z.div2 (53 + e + 1))) (Z.div2 e)
                = g - 26).
  { unfold fexp, emin, prec, emax. change IntDef.Z.max with Z.max.
    rewrite !Z.div2_div. subst g. Z.div_mod_to_equations. lia. }
  rewrite He'.
  change IntDef.Z.sqrtrem with Z.sqrtrem.
  change IntDef.Z.shiftl with Z.shiftl.
  assert (Hscaled :
    exists s : Z, (s = 52 \/ s = 53)
      /\ match e - 2 * (g - 26) with
         | 0 => Z.pos m
         | Z.pos _ => Z.shiftl (Z.pos m) (e - 2 * (g - 26))
         | Z.neg _ => 0
         end = Z.pos m * 2 ^ s).
  { exists (e - 2 * (g - 26)). split; [lia |].
    destruct (e - 2 * (g - 26)) as [| s | s] eqn:Hs; try lia.
    rewrite Z.shiftl_mul_pow2 by lia. reflexivity. }
  destruct Hscaled as (s & Hs & ->).
  assert (Hsc : 2 ^ 104 <= Z.pos m * 2 ^ s < 2 ^ 106)
    by (destruct Hs as [-> | ->]; lia).
  pose proof (Z.sqrtrem_spec (Z.pos m * 2 ^ s) ltac:(lia)) as Hspec.
  pose proof (Z.sqrtrem_sqrt (Z.pos m * 2 ^ s)) as Hfst.
  pose proof (Z.sqrt_spec (Z.pos m * 2 ^ s) ltac:(lia)) as Hsqrt.
  cbv zeta in Hsqrt.
  destruct (Z.sqrtrem (Z.pos m * 2 ^ s)) as [q r].
  cbn [fst] in Hfst. rewrite <- Hfst in Hsqrt. clear Hfst.
  destruct Hspec as [Hqr Hr].
  assert (Hq : 2 ^ 52 <= q < 2 ^ 53) by nia.
  destruct q as [| mq | mq]; try lia.
  remember (if r =? 0 then loc_Exact
            else loc_Inexact (if r <=? Z.pos mq then Lt else Gt)) as l.
  rewrite binary_round_aux_53 by lia.
  pose proof (round_nearest_even_ge (Z.pos mq) l) as Hge.
  destruct (round_nearest_even (Z.pos mq) l <? 2 ^ 53) eqn:Hlt.
  - apply Z.ltb_lt in Hlt. cbn [int_of_float cond_Zopp].
    eexists. split; [reflexivity |].
    rewrite Z2Pos.id by lia.
    pose proof (shiftl_bounds (round_nearest_even (Z.pos mq) l) (g - 26)
                  52 53 ltac:(lia) ltac:(lia) ltac:(lia)) as Hb.
    replace (52 + (g - 26)) with (26 + g) in Hb by lia.
    replace (53 + (g - 26)) with (27 + g) in Hb by lia. exact Hb.
  - cbn [int_of_float cond_Zopp]. eexists. split; [reflexivity |].
    rewrite Z2Pos.id by lia.
    pose proof (shiftl_bounds (2 ^ 52) (g - 26 + 1) 52 52
                  ltac:(lia) ltac:(lia) ltac:(lia)) as Hb.
    replace (52 + (g - 26 + 1)) with (27 + g) in Hb by lia.
    assert (2 ^ (26 + g) <= 2 ^ (27 + g)) by (apply Z.pow_le_mono_r; lia).
    lia.
Qed.

Lemma float_of_int_raises_overflow_only (n : Z) (e : exn) :
  float_of_int n = Raise e -> e = OverflowError.
Proof.
  unfold float_of_int.
  destruct (binary_normalize prec emax n 0 false); congruence.
Qed.

(** From [2^52] up to the overflow threshold, [is_prime] returns the result
    of the loop for a bound [k] with [2^26 <= k < n]. *)
Lemma is_prime_large (n : Z) :
  2 ^ 52 <= n < 2 ^ 1024 - 2 ^ 970 ->
  exists k : Z,
    2 ^ 26 <= k < n
    /\ is_prime n = Return (is_prime_loop n (range 2 (k + 1))).
Proof.
  intros Hn. unfold is_prime, int_pow_half.
  destruct (Z.ltb_spec n 2) as [H2 | H2]; [lia |].
  destruct (float_of_int n) as [x | e] eqn:Hx.
  - destruct (float_of_int_shape n x ltac:(lia) Hx)
      as (m & e & -> & Hm & He & Hlow).
    cbn [bind].
    destruct (int_sqrt_float_bounds m e Hm He) as (k & Hk & Hkb).
    rewrite Hk. cbn [bind]. exists k. split; [| reflexivity].
    assert (Hdiv : 0 <= e / 2 <= e) by (Z.div_mod_to_equations; lia).
    assert (H26 : 2 ^ 26 <= 2 ^ (26 + e / 2))
      by (apply Z.pow_le_mono_r; lia).
    assert (H27 : 2 ^ (27 + e / 2) < 2 ^ (51 + e))
      by (apply Z.pow_lt_mono_r; lia).
    lia.
  - exfalso. pose proof (float_of_int_raises_overflow_only n e Hx) as ->.
    apply float_of_int_overflow_iff in Hx; lia.
Qed.

Lemma is_prime_small (n : Z) :
  2 <= n < 2 ^ 52 ->
  is_prime n = Return (is_prime_loop n (range 2 (Z.sqrt n + 1))).
Proof.
  intros Hn. unfold is_prime.
  destruct (Z.ltb_spec n 2) as [H2 | H2]; [lia |].
  pose proof (int_pow_half_exact n ltac:(lia)) as Hsqrt.
  destruct (int_pow_half n) as [x | e]; cbn [bind] in *; [| discriminate].
  rewrite Hsqrt. reflexivity.
Qed.

(** Whenever [is_prime] gets to its loop, the bound [k] is below [n]; it is
    the integer square root below [2^52] and at least [2^26] from there
    on. *)
Lemma is_prime_returns_loop (n : Z) :
  2 <= n < 2 ^ 1024 - 2 ^ 970 ->
  exists k : Z,
    1 <= k < n
    /\ (n < 2 ^ 52 -> k = Z.sqrt n)
    /\ (2 ^ 52 <= n -> 2 ^ 26 <= k)
    /\ is_prime n = Return (is_prime_loop n (range 2 (k + 1))).
Proof.
  intros Hn. destruct (Z_lt_le_dec n (2 ^ 52)) as [Hs | Hb].
  - exists (Z.sqrt n).
    pose proof (Z.sqrt_lt_lin n ltac:(lia)) as Hlt.
    assert (H1 : 1 <= Z.sqrt n).
    { change 1 with (Z.sqrt 1). apply Z.sqrt_le_mono. lia. }
    repeat split; try lia. apply is_prime_small. lia.
  - destruct (is_prime_large n ltac:(lia)) as (k & Hk & Hloop).
    exists k. repeat split; try lia. exact Hloop.
Qed.

Lemma is_prime_raises_from_threshold (n : Z) :
  2 ^ 1024 - 2 ^ 970 <= n -> is_prime n = Raise OverflowError.
Proof.
  intros Hge. unfold is_prime, int_pow_half.
  destruct (Z.ltb_spec n 2) as [H2 | H2]; [lia |].
  rewrite (proj2 (float_of_int_overflow_iff n ltac:(lia)) Hge).
  reflexivity.
Qed.

Lemma is_prime_below_two (n : Z) : n < 2 -> is_prime n = Return false.
Proof.
  intros Hn. unfold is_prime. apply Z.ltb_lt in Hn. now rewrite Hn.
Qed.

(** X6: the exact domain of [is_prime]: it returns a Boolean for every
    integer below [2^1024 - 2^970], and raises OverflowError from there
    on. *)
Theorem is_prime_domain (n : Z) :
  ((exists b : bool, is_prime n = Return b) <-> n < 2 ^ 1024 - 2 ^ 970)
  /\ (is_prime n = Raise OverflowError <-> 2 ^ 1024 - 2 ^ 970 <= n).
Proof.
  destruct (Z_lt_le_dec n (2 ^ 1024 - 2 ^ 970)) as [Hlt | Hge].
  - assert (Hret : exists b : bool, is_prime n = Return b).
    { destruct (Z_lt_le_dec n 2) as [H2 | H2].
      - exists false. now apply is_prime_below_two.
      - destruct (is_prime_returns_loop n ltac:(lia)) as (k & _ & _ & _ & Hk).
        eexists. exact Hk. }
    split; split; try lia; try (intros; exact Hret).
    destruct Hret as [b Hb]. rewrite Hb. discriminate.
  - pose proof (is_prime_raises_from_threshold n Hge) as Hraise.
    split; split; try lia; try (intros; exact Hraise).
    intros [b Hb]. rewrite Hraise in Hb. discriminate.
Qed.

(** X7: a [False] answer is always right: whenever [is_prime n] returns
    false, [n] is not a prime number. *)
Theorem is_prime_false_is_right (n : Z) :
  is_prime n = Return false -> ~ prime n.
Proof.
  intros Hfalse Hp.
  apply prime_alt in Hp. destruct Hp as [Hn1 Hp].
  destruct (Z_lt_le_dec n (2 ^ 1024 - 2 ^ 970)) as [Hlt | Hge].
  - destruct (is_prime_returns_loop n ltac:(lia)) as (k & Hk & _ & _ & Hloop).
    rewrite Hloop in Hfalse. injection Hfalse as Hfalse.
    assert (Hnot : ~ (forall i, In i (range 2 (k + 1)) -> n mod i <> 0)).
    { intros Hall. apply is_prime_loop_true in Hall. congruence. }
    apply Hnot. intros i Hi Hmod. apply range_In in Hi.
    apply Z.mod_divide in Hmod; [| lia].
    apply (Hp i); [lia | exact Hmod].
  - rewrite (is_prime_raises_from_threshold n Hge) in Hfalse. discriminate.
Qed.

Lemma is_prime_false_is_right_witness : ~ prime 91.
Proof. apply (is_prime_false_is_right 91). vm_compute. reflexivity. Defined.



(** ** Proth's criterion *)

Lemma pigeonhole (n p : nat) (f : nat -> nat) :
  (forall i, (i < n)%nat -> (f i < p)%nat) ->
  (forall i j, (i < j < n)%nat -> f i <> f j) ->
  (n <= p)%nat.
Proof.
  intros Hrange Hinj.
  assert (Hnodup : NoDup (map f (seq 0 n))).
  { apply NoDup_map_NoDup_ForallPairs; [| apply seq_NoDup].
    intros i j Hi Hj Heq. apply in_seq in Hi, Hj.
    destruct (Nat.lt_trichotomy i j) as [Hlt | [Heq' | Hgt]]; [| exact Heq' |].
    - exfalso. apply (Hinj i j); [lia | exact Heq].
    - exfalso. apply (Hinj j i); [lia | now symmetry]. }
  assert (Hincl : incl (map f (seq 0 n)) (seq 0 p)).
  { intros x Hx. apply in_map_iff in Hx as (i & <- & Hi).
    apply in_seq in Hi. apply in_seq. specialize (Hrange i). lia. }
  pose proof (NoDup_incl_length Hnodup Hincl) as Hlen.
  now rewrite length_map, !length_seq in Hlen.
Qed.

Section Order.
(** An element [b] whose [2^m]-th power is [-1] modulo [d > 2]. *)
Variables (d b : Z) (m : nat).
Hypothesis Hd : 2 < d.
Hypothesis Hb : b ^ (2 ^ Z.of_nat m) mod d = d - 1.

Lemma pow_pow_two_succ : b ^ (2 ^ Z.of_nat (S m)) mod d = 1.
Proof.
  rewrite Nat2Z.inj_succ, Z.pow_succ_r by lia.
  rewrite Z.mul_comm, Z.pow_mul_r by lia.
  rewrite Zpower_mod, Hb by lia.
  replace ((d - 1) ^ 2) with (1 + (d - 2) * d) by ring.
  rewrite Z.mod_add by lia. apply Z.mod_small. lia.
Qed.

Lemma minus_one_pow_odd (u : Z) :
  0 <= u -> (d - 1) ^ (2 * u + 1) mod d = d - 1.
Proof.
  intros Hu.
  rewrite Z.pow_add_r, Z.pow_1_r, Z.pow_mul_r by lia.
  rewrite Zmult_mod, Zpower_mod by lia.
  replace ((d - 1) ^ 2) with (1 + (d - 2) * d) by ring.
  rewrite Z.mod_add by lia. rewrite (Z.mod_small 1) by lia.
  rewrite Z.pow_1_l by lia. rewrite (Z.mod_small 1) by lia.
  rewrite Z.mul_1_l, Z.mod_mod by lia. apply Z.mod_small. lia.
Qed.

(** Every exponent that sends [b] to 1 is a multiple of [2^(m+1)]. *)
Lemma order_divides (s : nat) :
  (s <= S m)%nat ->
  forall e : Z, 0 <= e -> b ^ e mod d = 1 -> (2 ^ Z.of_nat s | e).
Proof.
  induction s as [| s IH]; intros Hs e He Hone.
  - apply Z.divide_1_l.
  - destruct (IH ltac:(lia) e He Hone) as [u Hu].
    assert (Hpow : 0 < 2 ^ Z.of_nat s) by (apply Z.pow_pos_nonneg; lia).
    assert (Hu0 : 0 <= u) by nia.
    destruct (Z.Even_or_Odd u) as [[u' Hu'] | [u' Hu']].
    + exists u'. rewrite Nat2Z.inj_succ, Z.pow_succ_r by lia. subst. ring.
    + exfalso.
      assert (Hexp : e * 2 ^ (Z.of_nat m - Z.of_nat s)
                     = 2 ^ Z.of_nat m * (2 * u' + 1)).
      { replace (Z.of_nat m) with (Z.of_nat s + (Z.of_nat m - Z.of_nat s))
          at 2 by lia.
        rewrite Z.pow_add_r by lia. subst. ring. }
      assert (H1 : b ^ (e * 2 ^ (Z.of_nat m - Z.of_nat s)) mod d = 1).
      { rewrite Z.pow_mul_r by (try apply Z.pow_nonneg; lia).
        rewrite Zpower_mod, Hone by lia.
        rewrite Z.pow_1_l by (apply Z.pow_nonneg; lia).
        apply Z.mod_small. lia. }
      assert (H2 : b ^ (e * 2 ^ (Z.of_nat m - Z.of_nat s)) mod d = d - 1).
      { rewrite Hexp, Z.pow_mul_r by (try apply Z.pow_nonneg; lia).
        rewrite Zpower_mod, Hb by lia.
        apply minus_one_pow_odd. lia. }
      lia.
Qed.

(** The powers [b^0, ..., b^(2^(m+1) - 1)] are pairwise distinct
    modulo [d]. *)
Lemma powers_distinct (i j : Z) :
  0 <= i < j -> j < 2 ^ Z.of_nat (S m) -> b ^ i mod d <> b ^ j mod d.
Proof.
  intros Hij Hj Heq.
  set (M := 2 ^ Z.of_nat (S m)) in *.
  assert (Hone : b ^ (j - i) mod d = 1).
  { assert (Hmul : (b ^ i * b ^ (M - i)) mod d = (b ^ j * b ^ (M - i)) mod d)
      by (rewrite Zmult_mod, Heq, <- Zmult_mod; reflexivity).
    rewrite <- !Z.pow_add_r in Hmul by lia.
    replace (i + (M - i)) with M in Hmul by lia.
    replace (j + (M - i)) with (M + (j - i)) in Hmul by lia.
    rewrite Z.pow_add_r in Hmul by lia.
    rewrite (Zmult_mod (b ^ M)) in Hmul.
    unfold M in Hmul. rewrite pow_pow_two_succ in Hmul.
    rewrite Z.mul_1_l, Z.mod_mod in Hmul by lia.
    now symmetry. }
  pose proof (order_divides (S m) (le_n _) (j - i) ltac:(lia) Hone) as Hdiv.
  apply Z.divide_pos_le in Hdiv; [fold M in Hdiv; lia | lia].
Qed.

Lemma modulus_large : 2 ^ Z.of_nat (S m) <= d.
Proof.
  assert (Hpos : 0 < 2 ^ Z.of_nat (S m)) by (apply Z.pow_pos_nonneg; lia).
  assert (Hle : (Z.to_nat (2 ^ Z.of_nat (S m)) <= Z.to_nat d)%nat).
  { apply (pigeonhole _ _ (fun i => Z.to_nat (b ^ Z.of_nat i mod d))).
    - intros i Hi. pose proof (Z.mod_pos_bound (b ^ Z.of_nat i) d). lia.
    - intros i j Hij Heq.
      apply (powers_distinct (Z.of_nat i) (Z.of_nat j)); [lia | lia |].
      pose proof (Z.mod_pos_bound (b ^ Z.of_nat i) d).
      pose proof (Z.mod_pos_bound (b ^ Z.of_nat j) d). lia. }
  lia.
Qed.
End Order.

Section ProthCriterion.
(** Proth's criterion for [N = k * 2^(m+1) + 1] with [k < 2^(m+1)]: a base
    [a] with [a^((N-1)/2) = -1] modulo [N] proves [N] prime. *)
Variables (k a : Z) (m : nat).
Hypothesis Hk : 0 < k < 2 ^ Z.of_nat (S m).
Hypothesis Ha :
  a ^ (k * 2 ^ Z.of_nat m) mod proth_number k m = proth_number k m - 1.

Lemma proth_divisor_large (d : Z) :
  1 < d -> (d | proth_number k m) -> 2 ^ Z.of_nat (S m) <= d.
Proof.
  intros Hd [c Hc]. remember (proth_number k m) as N eqn:HeqN.
  unfold proth_number in HeqN.
  assert (Hpow : 0 < 2 ^ Z.of_nat m) by (apply Z.pow_pos_nonneg; lia).
  assert (HN : N = 2 * (k * 2 ^ Z.of_nat m) + 1).
  { subst N. rewrite Nat2Z.inj_succ, Z.pow_succ_r by lia. ring. }
  assert (Hd2 : 2 < d).
  { destruct (Z.eq_dec d 2) as [-> | Hne]; [| lia]. lia. }
  apply (modulus_large d (a ^ k) m Hd2).
  rewrite <- Z.pow_mul_r by lia.
  (* a ^ E = N * q + (N - 1), and d divides N *)
  pose proof (Z.div_mod (a ^ (k * 2 ^ Z.of_nat m)) N ltac:(lia)) as Hdm.
  rewrite Ha in Hdm.
  set (q := a ^ (k * 2 ^ Z.of_nat m) / N) in *.
  rewrite Hdm, Hc.
  replace (c * d * q + (c * d - 1)) with ((d - 1) + (c * q + c - 1) * d) by ring.
  rewrite Z.mod_add by lia. apply Z.mod_small. lia.
Qed.

Theorem proth : prime (proth_number k m).
Proof.
  assert (Hpow : 0 < 2 ^ Z.of_nat (S m)) by (apply Z.pow_pos_nonneg; lia).
  pose proof proth_divisor_large as Hlarge.
  remember (proth_number k m) as N eqn:HeqN. unfold proth_number in HeqN.
  assert (HN : 1 < N) by nia.
  apply prime_intro; [exact HN |].
  intros n Hn. constructor; try apply Z.divide_1_l.
  intros x Hxn HxN.
  assert (Hax : (Z.abs x | N)) by now apply Z.divide_abs_l.
  assert (Habs : Z.abs x <= n).
  { apply Z.divide_pos_le; [lia | now apply Z.divide_abs_l]. }
  destruct (Z.eq_dec (Z.abs x) 1) as [H1 | Hne].
  - apply Z.divide_abs_l. rewrite H1. apply Z.divide_refl.
  - exfalso.
    assert (Hx0 : Z.abs x <> 0).
    { intros H0. rewrite H0 in Hax. apply Z.divide_0_l in Hax. lia. }
    assert (Hx1 : 1 < Z.abs x) by lia.
    pose proof (Hlarge _ Hx1 Hax) as Hbig.
    destruct Hax as [c Hc].
    assert (Hc1 : 1 < c) by nia.
    assert (Hcbig : 2 ^ Z.of_nat (S m) <= c).
    { apply Hlarge; [exact Hc1 |]. exists (Z.abs x). lia. }
    nia.
Qed.
End ProthCriterion.

Lemma powm_spec (a n : bigN) (e : positive) :
  0 < BigN.to_Z n ->
  BigN.to_Z (powm a e n) = BigN.to_Z a ^ Z.pos e mod BigN.to_Z n.
Proof.
  intros Hn. induction e as [e IH | e IH |]; cbn [powm].
  - rewrite !BigN.spec_modulo, !BigN.spec_mul, !BigN.spec_modulo,
      BigN.spec_mul, IH.
    rewrite <- Zmult_mod, Z.mul_mod_idemp_l by lia.
    rewrite Pos2Z.inj_xI.
    replace (2 * Z.pos e + 1) with (Z.pos e + Z.pos e + 1) by lia.
    rewrite !Z.pow_add_r, Z.pow_1_r by lia. reflexivity.
  - rewrite !BigN.spec_modulo, !BigN.spec_mul, IH.
    rewrite <- Zmult_mod. rewrite Pos2Z.inj_xO.
    replace (2 * Z.pos e) with (Z.pos e + Z.pos e) by lia.
    rewrite Z.pow_add_r by lia. reflexivity.
  - rewrite BigN.spec_modulo, Z.pow_1_r. reflexivity.
Qed.

Lemma huge_prime_certificate :
  BigN.eqb
    (powm (BigN.of_N 11) (Z.to_pos (75 * 2 ^ 1017))
          (BigN.of_N (Z.to_N huge_prime)))
    (BigN.of_N (Z.to_N (huge_prime - 1))) = true.
Proof. vm_compute. reflexivity. Qed.

Lemma huge_prime_power :
  11 ^ (75 * 2 ^ 1017) mod huge_prime = huge_prime - 1.
Proof.
  pose proof huge_prime_certificate as Hw.
  rewrite BigN.spec_eqb in Hw. apply Z.eqb_eq in Hw.
  rewrite powm_spec in Hw.
  2:{ rewrite BigN.spec_of_N. vm_compute. reflexivity. }
  rewrite !BigN.spec_of_N in Hw.
  rewrite !Z2N.id in Hw by (vm_compute; discriminate).
  rewrite Z2Pos.id in Hw by (vm_compute; reflexivity).
  exact Hw.
Qed.

Lemma huge_prime_cofactor_small : 0 < 75 < 2 ^ Z.of_nat 1018.
Proof. split; vm_compute; reflexivity. Qed.

Theorem huge_prime_is_prime : prime huge_prime.
Proof.
  exact (proth 75 11 1017 huge_prime_cofactor_small huge_prime_power).
Qed.


(** ** The claims about is_prime *)

(** C2, at a failing input: [huge_prime] = 75 * 2^1018 + 1 is a prime
    number, yet [is_prime huge_prime] does not return true: the conversion
    of its argument to a float raises OverflowError. *)
Theorem is_prime_raises_on_a_prime :
  prime huge_prime /\ is_prime huge_prime = Raise OverflowError.
Proof.
  split; [exact huge_prime_is_prime |]. vm_compute. reflexivity.
Qed.

(** C8, at a failing input: [is_prime] is not free of error conditions;
    on 2^1024 it raises OverflowError instead of returning a Boolean. *)
Theorem is_prime_overflows_at_two_pow_1024 :
  is_prime (2 ^ 1024) = Raise OverflowError.
Proof. vm_compute. reflexivity. Qed.

(** ** Further properties *)



(** Just above 2^52 the float square root already differs from the integer
    square root: at 67108865^2 - 1 it is one too large. *)
Example float_sqrt_differs_above_two_pow_52 :
  (r <- int_pow_half (67108865 * 67108865 - 1) ;; int_of_float r)
  = Return 67108865
  /\ Z.sqrt (67108865 * 67108865 - 1) = 67108864.
Proof. split; vm_compute; reflexivity. Qed.

(** X5: [is_prime n] returns false for every n < 2, negative n included, and
    is_prime(2) = true, is_prime(17) = true, is_prime(4) = false,
    is_prime(9) = false. *)
Theorem is_prime_small_cases :
  (forall n : Z, n < 2 -> is_prime n = Return false)
  /\ is_prime 2 = Return true /\ is_prime 17 = Return true
  /\ is_prime 4 = Return false /\ is_prime 9 = Return false.
Proof.
  split.
  - intros n Hn. unfold is_prime.
    apply Z.ltb_lt in Hn. rewrite Hn. reflexivity.
  - repeat split; vm_compute; reflexivity.
Qed.

Lemma is_prime_small_cases_witness : is_prime (-7) = Return false.
Proof. apply (proj1 is_prime_small_cases (-7)). reflexivity. Defined.
